(** * KungPao isophote sampling: [kungpao/isophote/ellipse/sample.py]

    A shallow embedding of the [Sample] class (elliptical walk, NaN masking,
    sigma clipping, gradient estimation, coordinate mapping) and the proofs
    of the properties its specification states.

    Numbers.  The Python code computes with IEEE binary64 values through
    NumPy.  Rounding is outside what this development studies: a finite
    float is read as the exact rational it denotes ([Qc], canonical
    rationals, so that equality is Leibniz equality) and the arithmetic on
    finite values is exact.  What is kept of IEEE arithmetic is everything
    the control flow of [sample.py] depends on: NaN and the two infinities,
    their propagation through [+ - * /], NumPy's division by zero (a NaN or
    an infinity, never an exception), comparisons that are false on NaN, and
    Python truthiness of a float ([0.0] is falsy, NaN is truthy).  Signed
    zeros are identified.  The trigonometric functions of [coordinates] have
    no rational counterpart; [coordinates] is therefore written once, over
    an arbitrary scalar type, and read over the real numbers where its
    geometry is the subject.

    Collaborators.  [geometry.py], [integrator.py] and [constant.py] are
    outside [sample.py].  The engine takes them as parameters: the
    constant [PHI_MIN], the initial polar radius and angle and the
    radius-at-angle function of a geometry, and, per integration mode,
    what an integrator computes at a polar position.  The object
    protocol around them ([integrate] appends one sample to the three
    shared lists and records the sector) follows the contract the
    specification gives.

    Effects.  A method that mutates [self] takes the sample and returns
    the updated one.  The [while] loop of the walk runs on fuel, and a
    call returns, raises or runs out of fuel ([result]); computations
    also thread the number of [integrate] calls made so far, which is
    what the caching property is about. *)

From Stdlib Require Import QArith Qcanon Qround ZArith Lia Psatz List Bool Arith.
From Stdlib Require Import Reals.
Import ListNotations.

Set Implicit Arguments.

(* ------------------------------------------------------------------ *)
(** * Floats *)

Module PyFloat.

Inductive float : Type :=
| NaN
| PInf
| NInf
| Fin (q : Qc).

(** A decimal literal [n / d]. *)
Definition lit (n : Z) (d : positive) : float := Fin (Q2Qc (n # d)).

Definition of_Z (z : Z) : float := Fin (Q2Qc (inject_Z z)).
Definition of_nat (n : nat) : float := of_Z (Z.of_nat n).

Definition zero : float := of_Z 0.

Definition isnan (x : float) : bool :=
  match x with NaN => true | _ => false end.

(** [np.isfinite] *)
Definition isfinite (x : float) : bool :=
  match x with Fin _ => true | _ => false end.

(** Sign of a rational: [Lt] negative, [Eq] zero, [Gt] positive. *)
Definition Qc_sign (q : Qc) : comparison := (q ?= Q2Qc 0)%Qc.

Definition fneg (x : float) : float :=
  match x with
  | NaN => NaN
  | PInf => NInf
  | NInf => PInf
  | Fin q => Fin (- q)%Qc
  end.

Definition fadd (x y : float) : float :=
  match x, y with
  | NaN, _ | _, NaN => NaN
  | PInf, NInf | NInf, PInf => NaN
  | PInf, _ | _, PInf => PInf
  | NInf, _ | _, NInf => NInf
  | Fin a, Fin b => Fin (a + b)%Qc
  end.

Definition fsub (x y : float) : float := fadd x (fneg y).

(** An infinity of the sign given by a comparison with zero; the product
    of an infinity and zero is NaN. *)
Definition inf_of_sign (c : comparison) : float :=
  match c with Gt => PInf | Lt => NInf | Eq => NaN end.

Definition sign_of (x : float) : comparison :=
  match x with
  | NaN => Eq
  | PInf => Gt
  | NInf => Lt
  | Fin q => Qc_sign q
  end.

Definition sign_mul (a b : comparison) : comparison :=
  match a, b with
  | Eq, _ | _, Eq => Eq
  | Gt, c | c, Gt => c
  | Lt, Lt => Gt
  end.

Definition fmul (x y : float) : float :=
  match x, y with
  | NaN, _ | _, NaN => NaN
  | Fin a, Fin b => Fin (a * b)%Qc
  | _, _ => inf_of_sign (sign_mul (sign_of x) (sign_of y))
  end.

(** NumPy's float64 division: a zero divisor gives an infinity (or NaN for
    [0/0]) together with a warning, not an exception. *)
Definition fdiv (x y : float) : float :=
  match x, y with
  | NaN, _ | _, NaN => NaN
  | Fin a, Fin b =>
      match Qc_sign b with
      | Eq => inf_of_sign (Qc_sign a)
      | _ => Fin (a / b)%Qc
      end
  | Fin _, _ => zero
  | _, Fin b =>
      match Qc_sign b with
      | Lt => fneg x
      | _ => x
      end
  | _, _ => NaN
  end.

Definition fabs (x : float) : float :=
  match x with
  | NaN => NaN
  | PInf | NInf => PInf
  | Fin q => match Qc_sign q with Lt => Fin (- q)%Qc | _ => Fin q end
  end.

(** Square root of a non-negative rational [a/b], as
    [floor (sqrt (a * b * 4^53)) / (b * 2^53)]: exact whenever [a/b] is
    the square of a rational, and otherwise rounded down on a grid finer
    than [2^-53].  It is the one operation of the model that rounds. *)
Definition Qc_sqrt (q : Qc) : Qc :=
  let a := Qnum q in
  let b := Qden q in
  Q2Qc (Z.sqrt (a * Z.pos b * 4 ^ 53) # (b * 2 ^ 53)).

(** [np.sqrt]: NaN (with a warning) on a negative argument. *)
Definition fsqrt (x : float) : float :=
  match x with
  | NaN | NInf => NaN
  | PInf => PInf
  | Fin q => match Qc_sign q with Lt => NaN | _ => Fin (Qc_sqrt q) end
  end.

(** Comparisons: false as soon as one side is NaN. *)
Definition fltb (x y : float) : bool :=
  match x, y with
  | NaN, _ | _, NaN => false
  | PInf, _ => false
  | _, PInf => true
  | _, NInf => false
  | NInf, _ => true
  | Fin a, Fin b => match (a ?= b)%Qc with Lt => true | _ => false end
  end.

Definition fleb (x y : float) : bool :=
  match x, y with
  | NaN, _ | _, NaN => false
  | _, PInf => true
  | PInf, _ => false
  | NInf, _ => true
  | _, NInf => false
  | Fin a, Fin b => match (a ?= b)%Qc with Gt => false | _ => true end
  end.

Definition fgeb (x y : float) : bool := fleb y x.

(** Python truthiness of a float: only zero is falsy. *)
Definition truthy (x : float) : bool :=
  match x with
  | Fin q => match Qc_sign q with Eq => false | _ => true end
  | _ => true
  end.

(** Python's builtin [min(a, b)]: [b] when [b < a], else [a]. *)
Definition py_min (a b : float) : float := if fltb b a then b else a.

End PyFloat.

(* ------------------------------------------------------------------ *)
(** * Outcomes of a call *)

(** The exceptions a call can end with: the built-in ones that the
    interpreter raises in [sample.py], and [PreconditionError], the usage
    error the specification names for a [coordinates] call before
    [extract].  No statement of [sample.py] raises the latter. *)
Inductive exn : Type :=
| TypeError
| IndexError
| PreconditionError.

(** A call returns, raises, or is still running when the fuel of its
    [while] loop is spent. *)
Inductive result (A : Type) : Type :=
| Ok (a : A)
| Raise (e : exn)
| OutOfFuel.

Arguments Ok {A} a.
Arguments Raise {A} e.
Arguments OutOfFuel {A}.

(** Computations that also count the calls of [Integrator.integrate] made
    so far (the reading a counting stub integrator would give). *)
Definition M (A : Type) : Type := nat -> result (A * nat).

Definition ret {A : Type} (a : A) : M A := fun w => Ok (a, w).

Definition bind {A B : Type} (m : M A) (k : A -> M B) : M B :=
  fun w =>
    match m w with
    | Ok (a, w') => k a w'
    | Raise e => Raise e
    | OutOfFuel => OutOfFuel
    end.

Definition raise {A : Type} (e : exn) : M A := fun _ => Raise e.

Definition out_of_fuel {A : Type} : M A := fun _ => OutOfFuel.

Definition tick : M unit := fun w => Ok (tt, S w).

Declare Scope monad_scope.
Delimit Scope monad_scope with monad.
Notation "x <- m ;; k" := (bind m (fun x => k))
  (at level 61, m at next level, right associativity) : monad_scope.
Notation "' p <- m ;; k" := (bind m (fun x => match x with p => k end))
  (at level 61, p pattern, m at next level, right associativity) : monad_scope.

(* ------------------------------------------------------------------ *)
(** * Data model *)

(** The integration modes of [integrator.py]: the keys of its table
    [integrators].  A sample built with any other key fails with
    [KeyError] at [integrators[self.integrmode]] as soon as it is
    extracted; such samples are outside this development, and no
    statement below is about them. *)
Inductive IntegrMode : Type :=
| BI_LINEAR
| MEAN
| MEDIAN
| NEAREST_NEIGHBOR.

Section Data.

(** The scalar type: [PyFloat.float] for the sampling engine, [R] for
    the geometry of [coordinates]. *)
Variable F : Type.

(** A 2-d array, as its rows. *)
Definition Image : Type := list (list F).

(** [image.shape] *)
Definition shape (img : Image) : nat * nat :=
  (length img, length (hd [] img)).

(** Modelled from the spec: the [Geometry] class of [geometry.py], whose
    properties are [x0, y0, sma, eps, pa, astep, linear_growth]. *)
Record Geometry : Type := mkGeometry {
  x0 : F;
  y0 : F;
  sma : F;
  eps : F;
  pa : F;
  astep : F;
  linear_growth : bool
}.

(** The sampled values: [values[0]] angles, [values[1]] radii,
    [values[2]] intensities. *)
Record Values : Type := mkValues {
  angles : list F;
  radii : list F;
  intensities : list F
}.

(** The attributes of a [Sample] instance; [None] is Python's [None]. *)
Record Sample : Type := mkSample {
  image : Image;
  integrmode : IntegrMode;
  geometry : Geometry;
  sclip : F;
  nclip : Z;
  values : option Values;
  mean : option F;
  gradient : option F;
  gradient_error : option F;
  gradient_relative_error : option F;
  sector_area : option F;
  total_points : nat;
  actual_points : nat
}.

(** [geometry.sma = v] *)
Definition set_sma (v : F) (g : Geometry) : Geometry :=
  mkGeometry (x0 g) (y0 g) v (eps g) (pa g) (astep g) (linear_growth g).


Definition set_nclip (n : Z) (s : Sample) : Sample :=
  mkSample (image s) (integrmode s) (geometry s) (sclip s) n (values s)
    (mean s) (gradient s) (gradient_error s) (gradient_relative_error s)
    (sector_area s) (total_points s) (actual_points s).

Definition set_values (v : option Values) (s : Sample) : Sample :=
  mkSample (image s) (integrmode s) (geometry s) (sclip s) (nclip s) v
    (mean s) (gradient s) (gradient_error s) (gradient_relative_error s)
    (sector_area s) (total_points s) (actual_points s).

Definition set_mean (v : option F) (s : Sample) : Sample :=
  mkSample (image s) (integrmode s) (geometry s) (sclip s) (nclip s)
    (values s) v (gradient s) (gradient_error s)
    (gradient_relative_error s) (sector_area s) (total_points s)
    (actual_points s).

(** The three assignments that end [update]. *)
Definition set_gradients (g ge gre : option F) (s : Sample) : Sample :=
  mkSample (image s) (integrmode s) (geometry s) (sclip s) (nclip s)
    (values s) (mean s) g ge gre (sector_area s) (total_points s)
    (actual_points s).

Definition set_sector_area (v : option F) (s : Sample) : Sample :=
  mkSample (image s) (integrmode s) (geometry s) (sclip s) (nclip s)
    (values s) (mean s) (gradient s) (gradient_error s)
    (gradient_relative_error s) v (total_points s) (actual_points s).

Definition set_total_points (n : nat) (s : Sample) : Sample :=
  mkSample (image s) (integrmode s) (geometry s) (sclip s) (nclip s)
    (values s) (mean s) (gradient s) (gradient_error s)
    (gradient_relative_error s) (sector_area s) n (actual_points s).

Definition set_actual_points (n : nat) (s : Sample) : Sample :=
  mkSample (image s) (integrmode s) (geometry s) (sclip s) (nclip s)
    (values s) (mean s) (gradient s) (gradient_error s)
    (gradient_relative_error s) (sector_area s) (total_points s) n.

(** NumPy boolean-mask indexing [a[mask]]: the elements of [a] at the
    positions where [mask] is true.  NumPy raises when the two lengths
    differ; every mask below is computed from a series of the same walk,
    whose three buffers have one length (lemma [walk_buffers_aligned]). *)
Fixpoint compress {A : Type} (mask : list bool) (a : list A) : list A :=
  match mask, a with
  | true :: mask', x :: a' => x :: compress mask' a'
  | false :: mask', _ :: a' => compress mask' a'
  | _, _ => []
  end.

(** ** [Sample.coordinates] *)
Section Coordinates.

Variables (add mul : F -> F -> F) (cos sin : F -> F).

(** The loop [for i in range(len(x))], which fills [x[i]] and [y[i]] from
    [radii[i]] and [angles[i]]; [radii[i]] raises [IndexError] when
    [radii] is the shorter array. *)
Fixpoint coordinates_loop (g : Geometry) (angles radii : list F)
  : result (list F * list F) :=
  match angles, radii with
  | [], _ => Ok ([], [])
  | _ :: _, [] => Raise IndexError
  | a :: angles', r :: radii' =>
      let xi := add (mul r (cos (add a (pa g)))) (x0 g) in
      let yi := add (mul r (sin (add a (pa g)))) (y0 g) in
      match coordinates_loop g angles' radii' with
      | Ok (x, y) => Ok (xi :: x, yi :: y)
      | other => other
      end
  end.

Definition coordinates (s : Sample) : result (list F * list F) :=
  match values s with
  | None => Raise TypeError (* [self.values[0]] on [None] *)
  | Some v => coordinates_loop (geometry s) (angles v) (radii v)
  end.

End Coordinates.

End Data.

Arguments mkGeometry {F}.
Arguments mkValues {F}.
Arguments mkSample {F}.

(* ------------------------------------------------------------------ *)
(** * NumPy reductions *)

Import PyFloat.

Module Np.

(** [np.pi], the binary64 constant [0x400921FB54442D18]. *)
Definition pi : float := lit 884279719003555 281474976710656.

Definition sum (l : list float) : float := fold_left fadd l zero.

(** [np.mean]: the sum over the length; [0/0], hence NaN, on an empty
    array. *)
Definition mean (l : list float) : float :=
  fdiv (sum l) (of_nat (length l)).

(** [np.std]: [sqrt(mean(abs(x - x.mean())**2))]. *)
Definition std (l : list float) : float :=
  let m := mean l in
  fsqrt (mean (map (fun x => let d := fabs (fsub x m) in fmul d d) l)).

(** [np.nanmean], [np.nanstd]: the same over the entries that are not
    NaN. *)
Definition nanmean (l : list float) : float :=
  mean (filter (fun x => negb (isnan x)) l).

Definition nanstd (l : list float) : float :=
  std (filter (fun x => negb (isnan x)) l).

End Np.

(* ------------------------------------------------------------------ *)
(** * The sampling engine *)

(** Modelled from the spec: what one integration strategy of
    [integrator.py] computes at a polar position [(radius, phi)] of a
    geometry over an image: the integrated intensity, the sector area and
    the suggested next angular step. *)
Record Strategy : Type := mkStrategy {
  intensity_at : Image float -> Geometry float -> float -> float -> float;
  sector_area_at : Image float -> Geometry float -> float -> float -> float;
  polar_angle_step_at :
    Image float -> Geometry float -> float -> float -> float
}.

(** Modelled from the spec: an integrator object, constructed from
    (image, geometry, three output sequences).  The three lists are the
    ones [_extract] passes in and later reads back (the object and the
    caller share them), so they live here. *)
Record Integrator : Type := mkIntegrator {
  i_mode : IntegrMode;
  i_image : Image float;
  i_geometry : Geometry float;
  i_angles : list float;
  i_radii : list float;
  i_intensities : list float;
  (** the sector recorded by the last [integrate], as its position *)
  i_sector : option (float * float)
}.

Section Engine.

(** [PHI_MIN] of [constant.py]. *)
Variable PHI_MIN : Qc.

(** Modelled from the spec: [Geometry.initial_polar_radius],
    [Geometry.initial_polar_angle] and [Geometry.radius(angle)], derived
    from the geometry's properties by [geometry.py]. *)
Variable initial_polar_radius : Geometry float -> float.
Variable initial_polar_angle : Geometry float -> float.
Variable radius : Geometry float -> float -> float.

(** The table [integrators] of [integrator.py], by mode. *)
Variable integrators : IntegrMode -> Strategy.

(** [integrators[mode](image, geometry, angles, radii, intensities)] with
    three fresh empty lists. *)
Definition new_integrator (mode : IntegrMode) (img : Image float)
  (g : Geometry float) : Integrator :=
  mkIntegrator mode img g [] [] [] None.

(** Modelled from the spec: [is_area()] is true for the sector-area
    sensitive modes, mean and median. *)
Definition is_area (i : Integrator) : bool :=
  match i_mode i with
  | MEAN | MEDIAN => true
  | BI_LINEAR | NEAREST_NEIGHBOR => false
  end.

(** Modelled from the spec: [integrate(radius, phi)] appends one (angle,
    radius, intensity) sample to the three lists and records the sector
    geometry. *)
Definition integrate (i : Integrator) (r phi : float) : M Integrator :=
  (_ <- tick ;;
   ret (mkIntegrator (i_mode i) (i_image i) (i_geometry i)
          (i_angles i ++ [phi])
          (i_radii i ++ [r])
          (i_intensities i ++
             [intensity_at (integrators (i_mode i))
                (i_image i) (i_geometry i) r phi])
          (Some (r, phi))))%monad.

Definition get_sector_area (i : Integrator) : float :=
  match i_sector i with
  | Some (r, phi) =>
      sector_area_at (integrators (i_mode i)) (i_image i) (i_geometry i) r phi
  | None => NaN
  end.

Definition get_polar_angle_step (i : Integrator) : float :=
  match i_sector i with
  | Some (r, phi) =>
      polar_angle_step_at (integrators (i_mode i))
        (i_image i) (i_geometry i) r phi
  | None => NaN
  end.

(** ** [Sample.__init__] *)

(** Truthiness of an optional coordinate: [None] and [0.0] are falsy. *)
Definition truthy_opt (x : option float) : bool :=
  match x with
  | Some v => truthy v
  | None => false
  end.

Definition Sample_init (img : Image float) (sma_ : float)
  (x0_ y0_ : option float) (astep_ eps_ position_angle sclip_ : float)
  (nclip_ : Z) (linear_growth_ : bool) (integrmode_ : IntegrMode)
  (geometry_ : option (Geometry float)) : Sample float :=
  let geom :=
    match geometry_ with
    | Some g =>
        (* [copy.deepcopy(geometry)], then [geometry.sma = sma] *)
        set_sma sma_ g
    | None =>
        (* [image.shape[0] / 2], [image.shape[1] / 2] (true division) *)
        let center :=
          (fdiv (of_nat (fst (shape img))) (lit 2 1),
           fdiv (of_nat (snd (shape img))) (lit 2 1)) in
        let '(_x0, _y0) :=
          if negb (truthy_opt x0_) || negb (truthy_opt y0_)
          then center
          else
            match x0_, y0_ with
            | Some vx, Some vy => (vx, vy)
            | _, _ => center (* not reached: [None] is falsy *)
            end in
        mkGeometry _x0 _y0 sma_ eps_ position_angle astep_ linear_growth_
    end in
  mkSample img integrmode_ geom sclip_ nclip_
    None None None None None None 0%nat 0%nat.

(** ** Masking and clipping *)

Definition series : Type := (list float * list float * list float)%type.

Definition _nan_masking (angles radii intensities : list float) : series :=
  let nan_flag := map isfinite intensities in
  (compress nan_flag angles,
   compress nan_flag radii,
   compress nan_flag intensities).

Definition _iter_sigma_clip (s : Sample float)
  (angles radii intensities : list float) : series :=
  let mean := Np.nanmean intensities in
  let sig := Np.nanstd intensities in
  let lower := fsub mean (fmul (sclip s) sig) in
  let upper := fadd mean (fmul (sclip s) sig) in
  let clipping_mask :=
    map (fun x => fgeb x lower && fleb x upper) intensities in
  (compress clipping_mask angles,
   compress clipping_mask radii,
   compress clipping_mask intensities).

(** [for iter in range(n)] around [_iter_sigma_clip]. *)
Fixpoint sigma_clip_loop (n : nat) (s : Sample float)
  (angles radii intensities : list float) : series :=
  match n with
  | O => (angles, radii, intensities)
  | S n' =>
      let '(a, r, i) := _iter_sigma_clip s angles radii intensities in
      sigma_clip_loop n' s a r i
  end.

Definition _sigma_clip (s : Sample float)
  (angles radii intensities : list float) : series :=
  if (0 <? nclip s)%Z
  then sigma_clip_loop (Z.to_nat (nclip s)) s angles radii intensities
  else (angles, radii, intensities).

(** ** The walk *)

(** [np.pi * 2. + PHI_MIN] *)
Definition phi_max : float := fadd (fmul Np.pi (lit 2 1)) (Fin PHI_MIN).

(** The loop [while (phi <= np.pi * 2. + PHI_MIN)] of [_extract];
    [total] is [self.total_points].  Every iteration spends one unit of
    fuel. *)
Fixpoint walk (fuel : nat) (g : Geometry float) (integrator : Integrator)
  (sector_areas : list float) (total : nat) (r phi : float)
  : M (Integrator * list float * nat) :=
  if fleb phi phi_max then
    match fuel with
    | O => out_of_fuel
    | S fuel' =>
        (integrator <- integrate integrator r phi ;;
         let sector_areas := sector_areas ++ [get_sector_area integrator] in
         let total := S total in
         let phistep_ := get_polar_angle_step integrator in
         let phi := fadd phi (py_min phistep_ (lit 5 10)) in
         let r := radius g phi in
         walk fuel' g integrator sector_areas total r phi)%monad
    end
  else ret (integrator, sector_areas, total).

(** The integrator that will walk.  An area integrator is first asked,
    by one probe integration at the initial position, how much area its
    sectors have; the probe leaves its sample in the three lists, so
    fresh lists and a fresh integrator are built: the bi-linear one when
    the area is below 1.0, one of the selected mode otherwise. *)
Definition select_integrator (s : Sample float) : M Integrator :=
  (let integrator :=
     new_integrator (integrmode s) (image s) (geometry s) in
   let r := initial_polar_radius (geometry s) in
   let phi := initial_polar_angle (geometry s) in
   if is_area integrator then
     probe <- integrate integrator r phi ;;
     let area := get_sector_area probe in
     if fltb area (lit 1 1)
     then ret (new_integrator BI_LINEAR (image s) (geometry s))
     else ret (new_integrator (integrmode s) (image s) (geometry s))
   else ret integrator)%monad.

(** The number of probe integrations: one in an area mode, none
    otherwise. *)
Definition probes (s : Sample float) : nat :=
  if is_area (new_integrator (integrmode s) (image s) (geometry s))
  then 1%nat else 0%nat.

(** The first half of [_extract]: the integrator is built, probed when it
    is an area integrator, and walked along the ellipse.  Returns the
    integrator after the walk (whose three lists are the raw series), the
    sector areas and the number of attempted points. *)
Definition scan (fuel : nat) (s : Sample float)
  : M (Integrator * list float * nat) :=
  (let r := initial_polar_radius (geometry s) in
   let phi := initial_polar_angle (geometry s) in
   integrator <- select_integrator s ;;
   walk fuel (geometry s) integrator [] 0%nat r phi)%monad.

Definition _extract (fuel : nat) (s : Sample float)
  : M (Values float * Sample float) :=
  ('(integrator, sector_areas, total) <- scan fuel s ;;
   let s := set_total_points total (set_actual_points 0%nat s) in
   let s := set_sector_area (Some (Np.mean sector_areas)) s in
   let '(a, r, i) :=
     _nan_masking (i_angles integrator) (i_radii integrator)
       (i_intensities integrator) in
   let '(a, r, i) := _sigma_clip s a r i in
   let s := set_actual_points (length a) s in
   ret (mkValues a r i, s))%monad.

(** ** [Sample.extract] *)
Definition extract (fuel : nat) (s : Sample float)
  : M (Values float * Sample float) :=
  match values s with
  | Some v => ret (v, s)
  | None =>
      ('(v, s) <- _extract fuel s ;;
       ret (v, set_values (Some v) s))%monad
  end.

(** ** [Sample._get_gradient] *)

(** The sibling sample [gradient_sample = Sample(...)] at the semi-major
    axis [(1. + step) * sma], built from the scalars of the geometry. *)
Definition gradient_sample (s : Sample float) (step : float)
  : Sample float :=
  let g := geometry s in
  let gradient_sma := fmul (fadd (lit 1 1) step) (sma g) in
  Sample_init (image s) gradient_sma (Some (x0 g)) (Some (y0 g))
    (astep g) (eps g) (pa g) (sclip s) (nclip s) (linear_growth g)
    (integrmode s) None.

Definition _get_gradient (fuel : nat) (s : Sample float) (step : float)
  : M (float * float * Sample float) :=
  (let g := geometry s in
   '(sg, _) <- extract fuel (gradient_sample s step) ;;
   let mean_g := Np.mean (intensities sg) in
   match mean s with
   | None => raise TypeError (* [mean_g - None] *)
   | Some self_mean =>
       let gradient := fdiv (fdiv (fsub mean_g self_mean) (sma g)) step in
       '(sv, s) <- extract fuel s ;;
       let sigma := Np.std (intensities sv) in
       let sigma_g := Np.std (intensities sg) in
       let gradient_error :=
         fdiv (fdiv
                 (fsqrt (fadd
                           (fdiv (fmul sigma sigma)
                              (of_nat (length (intensities sv))))
                           (fdiv (fmul sigma_g sigma_g)
                              (of_nat (length (intensities sg))))))
                 (sma g))
           step in
       ret (gradient, gradient_error, s)
   end)%monad.

(** ** [Sample.update] *)
Definition update (fuel : nat) (s : Sample float) : M (Sample float) :=
  (let step := astep (geometry s) in
   '(sv, s) <- extract fuel s ;;
   let s := set_mean (Some (Np.mean (intensities sv))) s in
   '(grad, grad_error, s) <- _get_gradient fuel s step ;;
   let previous_gradient :=
     if truthy_opt (gradient s)
     then match gradient s with Some p => p | None => lit (-5) 100 end
     else lit (-5) 100 in
   '(grad, grad_error, s) <-
     (if fgeb grad (fdiv previous_gradient (lit 3 1))
      then _get_gradient fuel s (fmul (lit 2 1) step)
      else ret (grad, grad_error, s)) ;;
   let '(grad, grad_error) :=
     if fgeb grad (fdiv previous_gradient (lit 3 1))
     then (fmul previous_gradient (lit 8 10), None)
     else (grad, Some grad_error) in
   let relative :=
     if truthy_opt grad_error
     then match grad_error with
          | Some e => Some (fdiv e (fabs grad))
          | None => None
          end
     else None in
   ret (set_gradients (Some grad) grad_error relative s))%monad.

(** ** [CentralSample] *)

(** [CentralSample._extract]: no walk, no masking, no clipping; one
    bi-linear integration at the polar position (0.0, 0.0), whose sample
    is the tensor. *)
Definition CentralSample__extract (s : Sample float)
  : M (Values float * Sample float) :=
  (let integrator := new_integrator BI_LINEAR (image s) (geometry s) in
   integrator <- integrate integrator zero zero ;;
   let s := set_actual_points 1%nat (set_total_points 1%nat s) in
   ret (mkValues (i_angles integrator) (i_radii integrator)
          (i_intensities integrator), s))%monad.

(** [extract], inherited from [Sample], with the overriding [_extract]. *)
Definition CentralSample_extract (s : Sample float)
  : M (Values float * Sample float) :=
  match values s with
  | Some v => ret (v, s)
  | None =>
      ('(v, s) <- CentralSample__extract s ;;
       ret (v, set_values (Some v) s))%monad
  end.

(** [CentralSample.update]; [s[2][0]] raises [IndexError] on a tensor
    without a point. *)
Definition CentralSample_update (s : Sample float) : M (Sample float) :=
  ('(sv, s) <- CentralSample_extract s ;;
   match intensities sv with
   | [] => raise IndexError
   | i0 :: _ => ret (set_gradients None None None (set_mean (Some i0) s))
   end)%monad.

(** ** What the properties below ask of the collaborators *)

(** The loop bound, as a rational. *)
Definition phi_max_Qc : Qc :=
  (Q2Qc (884279719003555 # 281474976710656) * Q2Qc 2 + PHI_MIN)%Qc.

(** The image is constant and fully finite: whatever the mode, the
    geometry and the polar position, an integration over [img] gives the
    intensity [c], or a value that is not finite where the position is off
    the array. *)
Definition flat_image (c : Qc) (img : Image float) : Prop :=
  forall (m : IntegrMode) (g : Geometry float) (r phi : float),
    intensity_at (integrators m) img g r phi = Fin c \/
    isfinite (intensity_at (integrators m) img g r phi) = false.

End Engine.

(** A count as a rational, as in [of_nat]. *)
Definition Qc_of_nat (n : nat) : Qc := Q2Qc (inject_Z (Z.of_nat n)).

(* ------------------------------------------------------------------ *)
(** * A concrete instance

    A small family of collaborators on which the engine can be run: a
    crude ellipse and integrators over a radially symmetric image whose
    first row lists the intensity at each integer distance from the
    centre.  A position beyond the end of the row is off the array and
    integrates to NaN. *)

Module Demo.

Definition PHI_MIN : Qc := Q2Qc (5 # 100).

Definition initial_polar_angle (g : Geometry float) : float :=
  fdiv Np.pi (lit 2 1).

(** The semi-major axis over the upper half of the path, the semi-minor
    axis [sma * (1 - eps)] over the lower half. *)
Definition radius (g : Geometry float) (angle : float) : float :=
  if fltb angle Np.pi
  then sma g
  else fmul (sma g) (fsub (lit 1 1) (eps g)).

Definition initial_polar_radius (g : Geometry float) : float :=
  radius g (initial_polar_angle g).

(** The pixel at distance [floor r] from the centre. *)
Definition pixel (img : Image float) (r : float) : float :=
  match r with
  | Fin q =>
      match Qfloor q with
      | Z.neg _ => NaN
      | k => nth (Z.to_nat k) (hd [] img) NaN
      end
  | _ => NaN
  end.

Definition bilinear : Strategy :=
  mkStrategy
    (fun img _ r _ => pixel img r)
    (fun _ _ _ _ => lit 2 1)
    (fun _ _ r _ => fdiv (lit 1 1) r).

Definition nearest : Strategy :=
  mkStrategy
    (fun img _ r _ => pixel img r)
    (fun _ _ _ _ => lit 1 1)
    (fun _ _ r _ => fdiv (lit 1 1) r).

(** An area integrator: the mean of two neighbouring pixels over a sector
    whose area grows with the radius and the axis step. *)
Definition area_mean : Strategy :=
  mkStrategy
    (fun img _ r _ =>
       fdiv (fadd (pixel img r) (pixel img (fadd r (lit 1 1)))) (lit 2 1))
    (fun _ g r _ => fmul (fmul r r) (astep g))
    (fun _ _ r _ => fdiv (lit 1 1) r).

Definition integrators (m : IntegrMode) : Strategy :=
  match m with
  | BI_LINEAR => bilinear
  | NEAREST_NEIGHBOR => nearest
  | MEAN | MEDIAN => area_mean
  end.

(** A one-row image from integer pixel values. *)
Definition row_image (l : list Z) : Image float := [map of_Z l].

(** A flat image: twenty pixels of value 10. *)
Definition flat : Image float := row_image (repeat 10%Z 20).

(** A plateau of value 10 up to distance 10, then 5. *)
Definition plateau : Image float :=
  row_image (repeat 10%Z 11 ++ repeat 5%Z 9).

(** A ramp: the pixel at distance [k] has value [k]. *)
Definition ramp : Image float := row_image (map Z.of_nat (seq 0 20)).

(** A short image: a walk at distance 10 falls off the array. *)
Definition short : Image float := row_image (repeat 10%Z 4).

(** A sample of semi-major axis [a], ellipticity [e] and axis step [0.1]
    around (3, 4), in the given mode and with the given number of clip
    iterations. *)
Definition sample (img : Image float) (a : Z) (e : float)
  (mode : IntegrMode) (n : Z) : Sample float :=
  Sample_init img (of_Z a) (Some (of_Z 3)) (Some (of_Z 4))
    (lit 1 10) e zero (lit 3 1) n false mode None.

(** A sample over the reals with a populated cache: three points at
    distance 2 from the centre (1, -1), on an ellipse turned by [PI/6]. *)
Definition real_sample : Sample R :=
  mkSample [] BI_LINEAR
    (mkGeometry 1%R (-1)%R 2%R 0%R (PI / 6)%R (1 / 10)%R false)
    3%R 0%Z
    (Some (mkValues [0%R; (PI / 2)%R; PI] [2%R; 2%R; 2%R] [1%R; 1%R; 1%R]))
    None None None None None 3%nat 3%nat.

Abbreviation extract :=
  (extract PHI_MIN initial_polar_radius initial_polar_angle radius
     integrators).

Abbreviation update :=
  (update PHI_MIN initial_polar_radius initial_polar_angle radius
     integrators).

End Demo.

(** The number of points that survive masking and [n] clip iterations on
    a raw series: [actual_points] as [_extract] computes it from the
    three lists of the walk. *)
Definition surviving_points (s : Sample float) (n : Z)
  (angles radii intensities : list float) : nat :=
  let '(a, r, i) := _nan_masking angles radii intensities in
  let '(a, _, _) := _sigma_clip (set_nclip n s) a r i in
  length a.

(** A list of angles that starts at [phi] and never advances by more
    than the cap [0.5] of the walk. *)
Inductive path_from : float -> list float -> Prop :=
| path_nil (phi : float) : path_from phi []
| path_one (phi : float) : path_from phi [phi]
| path_cons (phi phi' : float) (rest : list float) :
    fleb phi' (fadd phi (lit 5 10)) = true ->
    path_from phi' (phi' :: rest) ->
    path_from phi (phi :: phi' :: rest).

(** The call counter of an outcome, moved by [d]. *)
Definition shift_calls {A : Type} (d : nat) (r : result (A * nat))
  : result (A * nat) :=
  match r with
  | Ok (a, w) => Ok (a, (w + d)%nat)
  | Raise e => Raise e
  | OutOfFuel => OutOfFuel
  end.


(* ------------------------------------------------------------------ *)
(** * Properties of masks *)

Arguments _iter_sigma_clip : simpl never.
Arguments phi_max : simpl never.
Arguments _nan_masking : simpl never.

Lemma compress_length_le (A : Type) (mask : list bool) (a : list A) :
  (length (compress mask a) <= length a)%nat.
Proof.
  revert a; induction mask as [|b mask IH]; intros a; [simpl; lia|].
  destruct b, a as [|x a]; simpl; try lia; specialize (IH a); lia.
Qed.

(** On a mask as long as the array, the selection has as many elements as
    the mask has true entries. *)
Lemma compress_length (A : Type) (mask : list bool) (a : list A) :
  length mask = length a ->
  length (compress mask a) = length (filter (fun b => b) mask).
Proof.
  revert a; induction mask as [|b mask IH]; intros a H.
  - destruct a; [reflexivity | discriminate].
  - destruct a as [|x a]; [discriminate|]. injection H as H.
    destruct b; simpl; rewrite (IH a H); reflexivity.
Qed.

Lemma filter_map_id (A : Type) (p : A -> bool) (l : list A) :
  length (filter (fun b => b) (map p l)) = length (filter p l).
Proof.
  induction l as [|x l IH]; simpl; auto.
  destruct (p x); simpl; rewrite IH; reflexivity.
Qed.

Lemma compress_mask_self (A : Type) (p : A -> bool) (l : list A) :
  compress (map p l) l = filter p l.
Proof.
  induction l as [|x l IH]; simpl; auto.
  destruct (p x); rewrite IH; reflexivity.
Qed.

Lemma filter_length_le (A : Type) (p : A -> bool) (l : list A) :
  (length (filter p l) <= length l)%nat.
Proof.
  induction l as [|x l IH]; simpl; auto.
  destruct (p x); simpl; lia.
Qed.

(** [_nan_masking] keeps the three series aligned and leaves as many
    points as there are finite intensities. *)
Lemma nan_masking_lengths (a r i : list float) :
  length a = length i -> length r = length i ->
  let '(a', r', i') := _nan_masking a r i in
  length a' = length (filter isfinite i) /\
  length r' = length (filter isfinite i) /\
  i' = filter isfinite i.
Proof.
  intros Ha Hr. unfold _nan_masking.
  rewrite compress_mask_self.
  rewrite !compress_length by (rewrite length_map; auto).
  rewrite filter_map_id. auto.
Qed.

Lemma iter_sigma_clip_aligned (s : Sample float) (a r i : list float) :
  length a = length i -> length r = length i ->
  let '(a', r', i') := _iter_sigma_clip s a r i in
  length a' = length i' /\ length r' = length i'.
Proof.
  intros Ha Hr. unfold _iter_sigma_clip.
  rewrite !compress_length by (rewrite length_map; auto). auto.
Qed.

Lemma iter_sigma_clip_shrinks (s : Sample float) (a r i : list float) :
  let '(a', _, _) := _iter_sigma_clip s a r i in
  (length a' <= length a)%nat.
Proof. unfold _iter_sigma_clip. apply compress_length_le. Qed.

(** One more iteration is one more [_iter_sigma_clip] after the others. *)
Lemma sigma_clip_loop_succ (n : nat) (s : Sample float)
  (a r i : list float) :
  sigma_clip_loop (S n) s a r i =
  let '(a', r', i') := sigma_clip_loop n s a r i in
  _iter_sigma_clip s a' r' i'.
Proof.
  revert a r i; induction n as [|n IH]; intros a r i.
  - cbv [sigma_clip_loop].
    destruct (_iter_sigma_clip s a r i) as [[a' r'] i']. reflexivity.
  - change (sigma_clip_loop (S (S n)) s a r i)
      with (let '(a', r', i') := _iter_sigma_clip s a r i in
            sigma_clip_loop (S n) s a' r' i').
    change (sigma_clip_loop (S n) s a r i)
      with (let '(a', r', i') := _iter_sigma_clip s a r i in
            sigma_clip_loop n s a' r' i').
    destruct (_iter_sigma_clip s a r i) as [[a' r'] i'].
    apply IH.
Qed.

Lemma sigma_clip_loop_aligned (n : nat) (s : Sample float)
  (a r i : list float) :
  length a = length i -> length r = length i ->
  let '(a', r', i') := sigma_clip_loop n s a r i in
  length a' = length i' /\ length r' = length i'.
Proof.
  revert a r i; induction n as [|n IH]; intros a r i Ha Hr.
  - simpl; auto.
  - pose proof (iter_sigma_clip_aligned s a r i Ha Hr) as H.
    change (sigma_clip_loop (S n) s a r i)
      with (let '(a', r', i') := _iter_sigma_clip s a r i in
            sigma_clip_loop n s a' r' i').
    destruct (_iter_sigma_clip s a r i) as [[a' r'] i'].
    destruct H as [H1 H2]. apply IH; assumption.
Qed.

Lemma sigma_clip_aligned (s : Sample float) (a r i : list float) :
  length a = length i -> length r = length i ->
  let '(a', r', i') := _sigma_clip s a r i in
  length a' = length i' /\ length r' = length i'.
Proof.
  intros Ha Hr. unfold _sigma_clip.
  destruct (0 <? nclip s)%Z; auto.
  apply sigma_clip_loop_aligned; assumption.
Qed.

Lemma sigma_clip_skipped (s : Sample float) (a r i : list float) :
  (nclip s <= 0)%Z -> _sigma_clip s a r i = (a, r, i).
Proof.
  intros H. unfold _sigma_clip.
  destruct (Z.ltb_spec 0 (nclip s)); [lia | reflexivity].
Qed.

(** Clipping reads only [sclip] and [nclip] of the sample. *)
Lemma sigma_clip_loop_ext (n : nat) (s s' : Sample float)
  (a r i : list float) :
  sclip s = sclip s' ->
  sigma_clip_loop n s a r i = sigma_clip_loop n s' a r i.
Proof.
  intros Hs. revert a r i; induction n as [|n IH]; intros a r i;
    [reflexivity|].
  cbn [sigma_clip_loop].
  replace (_iter_sigma_clip s' a r i) with (_iter_sigma_clip s a r i)
    by (unfold _iter_sigma_clip; rewrite Hs; reflexivity).
  destruct (_iter_sigma_clip s a r i) as [[a' r'] i']. apply IH.
Qed.


(** C4.  For a raw (angle, radius, intensity) series and a fixed [sclip],
    the number of points that survive masking and clipping does not grow
    with the number of clip iterations: [n + 1] iterations never leave
    more points than [n] (for every integer [n]; below zero nothing is
    clipped). *)
Theorem surviving_points_antitone (s : Sample float) (n : Z)
  (angles radii intensities : list float) :
  (surviving_points s (n + 1) angles radii intensities
   <= surviving_points s n angles radii intensities)%nat.
Proof.
  unfold surviving_points.
  destruct (_nan_masking angles radii intensities) as [[a r] i].
  unfold _sigma_clip; simpl.
  destruct (Z.ltb_spec 0 (n + 1)) as [Hp|Hp].
  - destruct (Z.ltb_spec 0 n) as [Hn|Hn].
    + replace (Z.to_nat (n + 1)) with (S (Z.to_nat n)) by lia.
      rewrite sigma_clip_loop_succ.
      destruct (sigma_clip_loop (Z.to_nat n) (set_nclip n s) a r i)
        as [[a1 r1] i1] eqn:E1.
      rewrite (sigma_clip_loop_ext _ (set_nclip (n + 1) s) (set_nclip n s))
        by reflexivity.
      rewrite E1.
      apply (iter_sigma_clip_shrinks (set_nclip (n + 1) s) a1 r1 i1).
    + replace n with 0%Z by lia. simpl.
      apply (iter_sigma_clip_shrinks (set_nclip (0 + 1) s) a r i).
  - destruct (Z.ltb_spec 0 n) as [Hn|Hn]; [lia | auto].
Qed.

(* ------------------------------------------------------------------ *)
(** * Properties of the walk and of [extract] *)

Section WalkProperties.

Variable PHI_MIN : Qc.
Variable initial_polar_radius : Geometry float -> float.
Variable initial_polar_angle : Geometry float -> float.
Variable radius : Geometry float -> float -> float.
Variable integrators : IntegrMode -> Strategy.

Local Abbreviation walk_ := (walk PHI_MIN radius integrators).
Local Abbreviation select_integrator_ :=
  (select_integrator initial_polar_radius initial_polar_angle integrators).
Local Abbreviation scan_ :=
  (scan PHI_MIN initial_polar_radius initial_polar_angle radius integrators).
Local Abbreviation _extract_ :=
  (_extract PHI_MIN initial_polar_radius initial_polar_angle radius
     integrators).
Local Abbreviation extract_ :=
  (extract PHI_MIN initial_polar_radius initial_polar_angle radius
     integrators).

(** The walk appends to the three buffers in step, once per attempted
    point and per call of [integrate]. *)
Lemma walk_buffers_aligned (fuel : nat) (g : Geometry float) :
  forall (i : Integrator) (areas : list float) (total : nat) (r phi : float)
         (w : nat) i' areas' total' w',
    walk_ fuel g i areas total r phi w = Ok (i', areas', total', w') ->
    exists k : nat,
      total' = (total + k)%nat /\ w' = (w + k)%nat /\
      length areas' = (length areas + k)%nat /\
      length (i_angles i') = (length (i_angles i) + k)%nat /\
      length (i_radii i') = (length (i_radii i) + k)%nat /\
      length (i_intensities i') = (length (i_intensities i) + k)%nat.
Proof.
  induction fuel as [|fuel IH];
    intros i areas total r phi w i' areas' total' w' H;
    cbn [walk] in H;
    destruct (fleb phi (phi_max PHI_MIN));
    unfold out_of_fuel, ret in H.
  - discriminate.
  - injection H as <- <- <- <-. exists 0%nat. repeat split; lia.
  - unfold integrate, bind, tick, ret in H. simpl in H.
    apply IH in H. destruct H as (k & -> & -> & Ha & H1 & H2 & H3).
    simpl in H1, H2, H3. rewrite length_app in *. simpl in *.
    exists (S k). repeat split; lia.
  - injection H as <- <- <- <-. exists 0%nat. repeat split; lia.
Qed.

(** Whatever the probe did, the walk starts with an integrator on empty
    lists, over the image and the geometry of the sample. *)
Lemma select_integrator_fresh (s : Sample float) (w : nat) :
  exists (m : IntegrMode) (w0 : nat),
    select_integrator_ s w = Ok (new_integrator m (image s) (geometry s), w0).
Proof.
  unfold select_integrator. destruct (is_area _).
  - unfold integrate, bind, tick, ret. cbv beta iota.
    match goal with
    | |- context [if ?c then _ else _] => destruct c
    end; eexists _, _; reflexivity.
  - eexists _, _; reflexivity.
Qed.

(** The scan starts the walk on empty buffers: the raw series has one
    entry per attempted point. *)
Lemma scan_buffers_aligned (fuel : nat) (s : Sample float) (w : nat)
  i areas total w' :
  scan_ fuel s w = Ok (i, areas, total, w') ->
  length (i_angles i) = total /\
  length (i_radii i) = total /\
  length (i_intensities i) = total /\
  length areas = total.
Proof.
  unfold scan, bind. intros H.
  destruct (select_integrator_fresh s w) as (m & w0 & E).
  rewrite E in H.
  apply walk_buffers_aligned in H.
  destruct H as (k & -> & _ & Hl & H1 & H2 & H3).
  simpl in *. auto.
Qed.

(** Whatever the clip settings, the tensor [extract] computes has three
    series of one length. *)
Lemma extract_values_aligned (fuel : nat) (s : Sample float) (w : nat)
  (v : Values float) (s' : Sample float) (w' : nat) :
  values s = None ->
  extract_ fuel s w = Ok (v, s', w') ->
  length (angles v) = length (intensities v) /\
  length (radii v) = length (intensities v) /\
  actual_points s' = length (intensities v).
Proof.
  intros Hv H. unfold extract in H. rewrite Hv in H.
  unfold _extract, bind in H.
  destruct (scan_ fuel s w) as [[[[raw areas] total] w1]| |] eqn:E;
    try discriminate.
  apply scan_buffers_aligned in E. destruct E as (Ha & Hr & Hi & _).
  pose proof (nan_masking_lengths (i_angles raw) (i_radii raw)
                (i_intensities raw)) as Hm.
  destruct (_nan_masking _ _ _) as [[a r] i].
  specialize (Hm ltac:(congruence) ltac:(congruence)).
  destruct Hm as (Hma & Hmr & Hmi).
  match type of H with
  | context [_sigma_clip ?s0 a r i] =>
      pose proof (sigma_clip_aligned s0 a r i) as Hc;
      destruct (_sigma_clip s0 a r i) as [[a1 r1] i1]
  end.
  specialize (Hc ltac:(congruence) ltac:(congruence)).
  destruct Hc as [Hc1 Hc2].
  unfold ret in H. injection H as <- <- <-. simpl. auto.
Qed.

(** C1.  For a sample with [nclip = 0] whose values are not cached yet,
    when [extract] completes: [actual_points] is the number of attempted
    walk positions whose integrated intensity is finite,
    [actual_points <= total_points], and the three series of the cached
    tensor all have length [actual_points]. *)
Theorem extract_counts_finite_points (fuel : nat) (s : Sample float)
  (w : nat) (v : Values float) (s' : Sample float) (w' : nat) :
  nclip s = 0%Z ->
  values s = None ->
  extract_ fuel s w = Ok (v, s', w') ->
  exists (raw : Integrator) (areas : list float),
    scan_ fuel s w = Ok (raw, areas, total_points s', w') /\
    length (i_intensities raw) = total_points s' /\
    actual_points s' = length (filter isfinite (i_intensities raw)) /\
    (actual_points s' <= total_points s')%nat /\
    values s' = Some v /\
    length (angles v) = actual_points s' /\
    length (radii v) = actual_points s' /\
    length (intensities v) = actual_points s'.
Proof.
  intros Hn Hv H. unfold extract in H. rewrite Hv in H.
  unfold _extract, bind in H.
  destruct (scan_ fuel s w) as [[[[raw areas] total] w1]| |] eqn:E;
    try discriminate.
  pose proof (scan_buffers_aligned _ _ _ E) as (Ha & Hr & Hi & _).
  pose proof (nan_masking_lengths (i_angles raw) (i_radii raw)
                (i_intensities raw)) as Hm.
  destruct (_nan_masking _ _ _) as [[a r] i].
  specialize (Hm ltac:(congruence) ltac:(congruence)).
  destruct Hm as (Hma & Hmr & ->).
  rewrite sigma_clip_skipped in H by (simpl; lia).
  unfold ret in H. injection H as <- <- <-. simpl.
  exists raw, areas. repeat split; auto; try congruence.
  rewrite Hma, <- Hi. apply filter_length_le.
Qed.

(** C7.  Once [extract] has returned, a second call on the same sample
    returns the identical tensor, leaves the sample as it is, and makes no
    call of the integrator (the call counter does not move), whatever fuel
    it is given: the walk happens at most once per instance. *)
Theorem extract_is_cached (fuel fuel' : nat) (s : Sample float) (w : nat)
  (v : Values float) (s' : Sample float) (w' : nat) :
  extract_ fuel s w = Ok (v, s', w') ->
  extract_ fuel' s' w' = Ok (v, s', w').
Proof.
  intros H. unfold extract in H.
  destruct (values s) as [v0|] eqn:Hv.
  - unfold ret in H. injection H as <- <- <-.
    unfold extract. rewrite Hv. reflexivity.
  - unfold bind in H.
    destruct (_extract_ fuel s w) as [[[v1 s1] w1]| |]; try discriminate.
    unfold ret in H. injection H as <- <- <-.
    reflexivity.
Qed.



End WalkProperties.

(* ------------------------------------------------------------------ *)
(** * Facts about floats *)

Lemma Qc_sign_zero (q : Qc) : Qc_sign q = Eq <-> q = Q2Qc 0.
Proof. unfold Qc_sign. symmetry. apply Qceq_alt. Qed.

(** Only zero is falsy. *)
Lemma truthy_false_iff (v : float) : truthy v = false <-> v = zero.
Proof.
  destruct v as [| | |q]; simpl; try (split; discriminate).
  destruct (Qc_sign q) eqn:E.
  - apply Qc_sign_zero in E. subst q. split; reflexivity.
  - split; [discriminate|]. intros [= ->]. discriminate E.
  - split; [discriminate|]. intros [= ->]. discriminate E.
Qed.

(* ------------------------------------------------------------------ *)
(** * Construction and coordinates *)

(** C10.  For a sample constructed without a Geometry object: if either
    centre coordinate is omitted or equal to zero, both are replaced by
    the image-centre defaults ([shape[0]/2], [shape[1]/2]), whatever
    non-zero value the other axis was given; the supplied coordinates are
    kept only when both are non-zero. *)
Theorem init_center_default (img : Image float) (sma_ : float)
  (x0_ y0_ : option float) (astep_ eps_ position_angle sclip_ : float)
  (nclip_ : Z) (linear_growth_ : bool) (integrmode_ : IntegrMode) :
  let g :=
    geometry (Sample_init img sma_ x0_ y0_ astep_ eps_ position_angle
                sclip_ nclip_ linear_growth_ integrmode_ None) in
  ((x0_ = None \/ x0_ = Some zero \/ y0_ = None \/ y0_ = Some zero) ->
   x0 g = fdiv (of_nat (fst (shape img))) (lit 2 1) /\
   y0 g = fdiv (of_nat (snd (shape img))) (lit 2 1)) /\
  (forall vx vy : float,
     x0_ = Some vx -> y0_ = Some vy -> vx <> zero -> vy <> zero ->
     x0 g = vx /\ y0 g = vy).
Proof.
  pose proof truthy_false_iff as Hz.
  simpl. split.
  - intros H.
    assert (Hf : negb (truthy_opt x0_) || negb (truthy_opt y0_) = true).
    { apply orb_true_iff.
      destruct H as [-> | [-> | [-> | ->]]]; simpl; auto. }
    rewrite Hf. simpl. auto.
  - intros vx vy -> -> Hx Hy. simpl.
    destruct (truthy vx) eqn:Ex; [|apply Hz in Ex; contradiction].
    destruct (truthy vy) eqn:Ey; [|apply Hz in Ey; contradiction].
    simpl. auto.
Qed.

(** On aligned series the loop of [coordinates] returns, with one
    coordinate pair per sampled point. *)
Lemma coordinates_loop_total (F : Type) (add mul : F -> F -> F)
  (cos sin : F -> F) (g : Geometry F) (angles radii : list F) :
  length angles = length radii ->
  exists xs ys,
    coordinates_loop add mul cos sin g angles radii = Ok (xs, ys) /\
    forall (i : nat) (a r : F),
      nth_error angles i = Some a -> nth_error radii i = Some r ->
      nth_error xs i = Some (add (mul r (cos (add a (pa g)))) (x0 g)) /\
      nth_error ys i = Some (add (mul r (sin (add a (pa g)))) (y0 g)).
Proof.
  revert radii; induction angles as [|a0 angles IH]; intros [|r0 radii] H;
    try discriminate.
  - exists [], []. split; [reflexivity|]. intros [|i] a r Ha; discriminate.
  - injection H as H. destruct (IH radii H) as (xs & ys & E & Hn).
    simpl. rewrite E. eexists _, _. split; [reflexivity|].
    intros [|i] a r Ha Hr; simpl in *.
    + injection Ha as <-. injection Hr as <-. auto.
    + apply Hn; assumption.
Qed.

(** C5.  Over the real numbers: for a sample with a populated cache (its
    angle and radius series aligned, as [extract] leaves them),
    [coordinates] returns, and every point [i] of sampled radius
    [r_i >= 0] is mapped to [x_i = r_i*cos(angle_i + pa) + x0],
    [y_i = r_i*sin(angle_i + pa) + y0], at Euclidean distance [r_i] from
    the centre [(x0, y0)]. *)
Theorem coordinates_on_ellipse (s : Sample R) (v : Values R) :
  values s = Some v ->
  length (angles v) = length (radii v) ->
  exists xs ys : list R,
    coordinates Rplus Rmult cos sin s = Ok (xs, ys) /\
    forall (i : nat) (a r : R),
      nth_error (angles v) i = Some a ->
      nth_error (radii v) i = Some r ->
      (0 <= r)%R ->
      exists x y : R,
        nth_error xs i = Some x /\ nth_error ys i = Some y /\
        x = (r * cos (a + pa (geometry s)) + x0 (geometry s))%R /\
        y = (r * sin (a + pa (geometry s)) + y0 (geometry s))%R /\
        sqrt ((x - x0 (geometry s)) * (x - x0 (geometry s)) +
              (y - y0 (geometry s)) * (y - y0 (geometry s))) = r.
Proof.
  intros Hv Hl. unfold coordinates. rewrite Hv.
  destruct (coordinates_loop_total Rplus Rmult cos sin (geometry s)
              (angles v) (radii v) Hl) as (xs & ys & E & Hn).
  exists xs, ys. split; [exact E|].
  intros i a r Ha Hr Hpos. destruct (Hn i a r Ha Hr) as [Hx Hy].
  eexists _, _. repeat split; try eassumption.
  set (t := (a + pa (geometry s))%R).
  replace ((r * cos t + x0 (geometry s) - x0 (geometry s)) *
           (r * cos t + x0 (geometry s) - x0 (geometry s)) +
           (r * sin t + y0 (geometry s) - y0 (geometry s)) *
           (r * sin t + y0 (geometry s) - y0 (geometry s)))%R
    with (r * r * ((sin t)² + (cos t)²))%R by (unfold Rsqr; ring).
  rewrite sin2_cos2, Rmult_1_r. apply sqrt_square. exact Hpos.
Qed.

(* ------------------------------------------------------------------ *)
(** * Fuel *)

Lemma this_plus (p q : Qc) : (this (p + q)%Qc == this p + this q)%Q.
Proof. unfold Qcplus, Q2Qc; cbn [this]. apply Qred_correct. Qed.

Lemma fleb_Fin (a b : Qc) : fleb (Fin a) (Fin b) = true <-> (a <= b)%Qc.
Proof.
  simpl. rewrite Qcle_alt.
  destruct (a ?= b)%Qc; split; intros H; try reflexivity;
    try discriminate; try (intros E; discriminate E); contradiction.
Qed.

Lemma fltb_Fin (a b : Qc) : fltb (Fin a) (Fin b) = true <-> (a < b)%Qc.
Proof.
  simpl. rewrite Qclt_alt.
  destruct (a ?= b)%Qc; split; intros H; try reflexivity; discriminate.
Qed.

Section Fuel.

Variable PHI_MIN : Qc.
Variable initial_polar_radius : Geometry float -> float.
Variable initial_polar_angle : Geometry float -> float.
Variable radius : Geometry float -> float -> float.
Variable integrators : IntegrMode -> Strategy.

Local Abbreviation walk_ := (walk PHI_MIN radius integrators).
Local Abbreviation select_integrator_ :=
  (select_integrator initial_polar_radius initial_polar_angle integrators).
Local Abbreviation scan_ :=
  (scan PHI_MIN initial_polar_radius initial_polar_angle radius integrators).
Local Abbreviation extract_ :=
  (extract PHI_MIN initial_polar_radius initial_polar_angle radius
     integrators).
Local Abbreviation phi_max_Qc_ := (phi_max_Qc PHI_MIN).

Lemma phi_max_Fin : phi_max PHI_MIN = Fin phi_max_Qc_.
Proof. reflexivity. Qed.

(** More fuel does not change what a walk returns. *)
Lemma walk_fuel_mono (g : Geometry float) (fuel : nat) :
  forall (fuel' : nat) (i : Integrator) (areas : list float) (total : nat)
         (r phi : float) (w : nat) res,
    (fuel <= fuel')%nat ->
    walk_ fuel g i areas total r phi w = Ok res ->
    walk_ fuel' g i areas total r phi w = Ok res.
Proof.
  induction fuel as [|fuel IH]; intros fuel' i areas total r phi w res Hle H.
  - cbn [walk] in H. destruct fuel'; cbn [walk];
      destruct (fleb phi (phi_max PHI_MIN)); try discriminate; exact H.
  - destruct fuel' as [|fuel']; [lia|].
    cbn [walk] in *. destruct (fleb phi (phi_max PHI_MIN)); [|exact H].
    unfold bind at 1 in H. unfold bind at 1.
    destruct (integrate integrators i r phi w) as [[i1 w1]| |];
      try discriminate.
    apply IH; [lia | exact H].
Qed.

Lemma scan_fuel_mono (fuel fuel' : nat) (s : Sample float) (w : nat) res :
  (fuel <= fuel')%nat ->
  scan_ fuel s w = Ok res -> scan_ fuel' s w = Ok res.
Proof.
  intros Hle. unfold scan, bind.
  destruct (select_integrator_ s w) as [[i0 w0]| |]; try discriminate.
  apply walk_fuel_mono; exact Hle.
Qed.

Lemma extract_fuel_mono (fuel fuel' : nat) (s : Sample float) (w : nat) res :
  (fuel <= fuel')%nat ->
  extract_ fuel s w = Ok res -> extract_ fuel' s w = Ok res.
Proof.
  intros Hle. unfold extract. destruct (values s); [auto|].
  unfold _extract, bind.
  destruct (scan_ fuel s w) as [[[[raw areas] total] w1]| |] eqn:E;
    try discriminate.
  rewrite (scan_fuel_mono s w Hle E). auto.
Qed.

(** What [extract] leaves of a sample whose cache was empty: the cache
    and the three walk attributes are set, nothing else moves. *)
Lemma extract_shape (fuel : nat) (s : Sample float) (w : nat)
  (v : Values float) (s' : Sample float) (w' : nat) :
  values s = None ->
  extract_ fuel s w = Ok (v, s', w') ->
  exists (sa : option float) (tp ap : nat),
    s' = mkSample (image s) (integrmode s) (geometry s) (sclip s) (nclip s)
           (Some v) (mean s) (gradient s) (gradient_error s)
           (gradient_relative_error s) sa tp ap.
Proof.
  intros Hv H. unfold extract in H. rewrite Hv in H.
  unfold _extract, bind in H.
  destruct (scan_ fuel s w) as [[[[raw areas] total] w1]| |];
    try discriminate.
  destruct (_nan_masking _ _ _) as [[a r] i].
  destruct (_sigma_clip _ a r i) as [[a1 r1] i1].
  unfold ret in H. injection H as <- <- <-.
  eexists _, _, _. reflexivity.
Qed.

End Fuel.

(* ------------------------------------------------------------------ *)
(** * Reductions of a constant series *)

Lemma Qc_of_nat_S (n : nat) : Qc_of_nat (S n) = (Qc_of_nat n + 1)%Qc.
Proof.
  unfold Qc_of_nat. apply Qc_is_canon.
  rewrite this_plus. unfold Q2Qc; cbn [this]. rewrite !Qred_correct.
  rewrite Nat2Z.inj_succ. unfold Z.succ. rewrite inject_Z_plus. reflexivity.
Qed.

Lemma Qc_of_nat_nonneg (n : nat) : (Q2Qc 0 <= Qc_of_nat n)%Qc.
Proof.
  unfold Qc_of_nat, Qcle, Q2Qc; cbn [this]. rewrite !Qred_correct.
  change 0%Q with (inject_Z 0). rewrite <- Zle_Qle. lia.
Qed.

Lemma Qc_of_nat_S_nonzero (n : nat) : Qc_of_nat (S n) <> Q2Qc 0.
Proof.
  intros E. pose proof (Qc_of_nat_nonneg n) as H.
  rewrite Qc_of_nat_S in E.
  assert (L : (Q2Qc 0 < Qc_of_nat n + 1)%Qc).
  { unfold Qclt, Qcle in *. rewrite this_plus.
    change (this 1%Qc) with 1%Q. change (this (Q2Qc 0)) with 0%Q in *. lra. }
  rewrite E in L. exact (Qlt_irrefl _ L).
Qed.

Lemma Qc_sign_nonzero (q : Qc) : q <> Q2Qc 0 -> Qc_sign q <> Eq.
Proof. intros H E. apply H, Qc_sign_zero, E. Qed.

(** Division of finite values with a divisor that is not zero. *)
Lemma fdiv_Fin (a b : Qc) :
  b <> Q2Qc 0 -> fdiv (Fin a) (Fin b) = Fin (a / b)%Qc.
Proof.
  intros H. simpl. destruct (Qc_sign b) eqn:E; try reflexivity.
  exfalso. exact (Qc_sign_nonzero H E).
Qed.

Lemma sum_repeat_from (c acc : Qc) (n : nat) :
  fold_left fadd (repeat (Fin c) n) (Fin acc)
  = Fin (acc + Qc_of_nat n * c)%Qc.
Proof.
  revert acc; induction n as [|n IH]; intros acc.
  - simpl. f_equal. unfold Qc_of_nat. change (Q2Qc (inject_Z (Z.of_nat 0)))
      with (Q2Qc 0). ring.
  - cbn [repeat fold_left fadd]. rewrite IH, Qc_of_nat_S. f_equal. ring.
Qed.

Lemma mean_repeat (c : Qc) (n : nat) : Np.mean (repeat (Fin c) (S n)) = Fin c.
Proof.
  unfold Np.mean, Np.sum, zero, of_Z. rewrite sum_repeat_from, repeat_length.
  change (of_nat (S n)) with (Fin (Qc_of_nat (S n))).
  rewrite fdiv_Fin by apply Qc_of_nat_S_nonzero.
  change (Q2Qc (inject_Z 0)) with (Q2Qc 0).
  apply f_equal. field. apply Qc_of_nat_S_nonzero.
Qed.

Lemma compress_all (A : Type) (n : nat) (a : list A) :
  length a = n -> compress (repeat true n) a = a.
Proof.
  revert a; induction n as [|n IH]; intros [|x a] H; try discriminate;
    [reflexivity|].
  simpl. rewrite IH; [reflexivity | injection H as H; exact H].
Qed.

Lemma fleb_refl (c : Qc) : fleb (Fin c) (Fin c) = true.
Proof. apply fleb_Fin, Qcle_refl. Qed.

(* ------------------------------------------------------------------ *)
(** * The gradient chain *)


Lemma fleb_nan_r (x : float) : fleb x NaN = false.
Proof. destruct x; reflexivity. Qed.

Lemma mean_nil : Np.mean [] = NaN.
Proof. reflexivity. Qed.


Section Gradient.

Variable PHI_MIN : Qc.
Variable initial_polar_radius : Geometry float -> float.
Variable initial_polar_angle : Geometry float -> float.
Variable radius : Geometry float -> float -> float.
Variable integrators : IntegrMode -> Strategy.

Local Abbreviation walk_ := (walk PHI_MIN radius integrators).
Local Abbreviation select_integrator_ :=
  (select_integrator initial_polar_radius initial_polar_angle integrators).
Local Abbreviation scan_ :=
  (scan PHI_MIN initial_polar_radius initial_polar_angle radius integrators).
Local Abbreviation extract_ :=
  (extract PHI_MIN initial_polar_radius initial_polar_angle radius
     integrators).
Local Abbreviation _get_gradient_ :=
  (_get_gradient PHI_MIN initial_polar_radius initial_polar_angle radius
     integrators).
Local Abbreviation update_ :=
  (update PHI_MIN initial_polar_radius initial_polar_angle radius
     integrators).

(** [extract] never touches the configuration of the sample, its mean or
    its gradient attributes, and always leaves the cache populated with
    the tensor it returns. *)
Lemma extract_keeps (fuel : nat) (s : Sample float) (w : nat)
  (v : Values float) (s' : Sample float) (w' : nat) :
  extract_ fuel s w = Ok (v, s', w') ->
  values s' = Some v /\
  image s' = image s /\ integrmode s' = integrmode s /\
  geometry s' = geometry s /\ sclip s' = sclip s /\ nclip s' = nclip s /\
  mean s' = mean s /\ gradient s' = gradient s.
Proof.
  intros H. destruct (values s) as [v0|] eqn:Hv.
  - unfold extract in H. rewrite Hv in H. unfold ret in H.
    injection H as <- <- <-. repeat split; auto.
  - apply extract_shape in H; [|exact Hv].
    destruct H as (sa & tp & ap & ->). repeat split; reflexivity.
Qed.

(** The sibling sample is built from the configuration alone. *)
Lemma gradient_sample_ext (s s' : Sample float) (step : float) :
  image s' = image s -> integrmode s' = integrmode s ->
  geometry s' = geometry s -> sclip s' = sclip s -> nclip s' = nclip s ->
  gradient_sample s' step = gradient_sample s step.
Proof.
  intros H1 H2 H3 H4 H5. unfold gradient_sample.
  rewrite H1, H2, H3, H4, H5. reflexivity.
Qed.

(** How [update] ends: the relative error is the error over the absolute
    gradient exactly when the error is truthy (not [None], not zero). *)
Lemma update_relative_error (fuel : nat) (s : Sample float) (w : nat)
  (s' : Sample float) (w' : nat) :
  update_ fuel s w = Ok (s', w') ->
  exists g : float,
    gradient s' = Some g /\
    gradient_relative_error s' =
    match gradient_error s' with
    | Some e => if truthy e then Some (fdiv e (fabs g)) else None
    | None => None
    end.
Proof.
  intros H. unfold update, bind in H.
  repeat match type of H with
  | match ?m with _ => _ end = _ =>
      destruct m as [[[[? ?] ?] ?]| |] eqn:?; try discriminate
  | match ?m with _ => _ end = _ =>
      destruct m as [[[? ?] ?]| |] eqn:?; try discriminate
  end.
  match type of H with
  | context [if ?c then (fmul _ _, None) else _] => destruct c
  end; unfold ret in H; injection H as <- <-; cbn; eexists;
    (split; [reflexivity|]); auto.
Qed.

End Gradient.

(* ------------------------------------------------------------------ *)
(** * The properties on the concrete instance *)

(** Splits a call on the concrete instance into its returned value. *)
Ltac returned E :=
  match goal with
  | |- context [Demo.extract ?f ?s ?w = _] =>
      destruct (Demo.extract f s w) as [[[? ?] ?]| |] eqn:E;
      [| exfalso; vm_compute in E; discriminate E ..]
  end.

(** On the short image, a flattened walk of 26 attempted points leaves
    the array on its upper half; the counts and lengths agree. *)
Lemma extract_counts_finite_points_witness :
  exists (v : Values float) (s' : Sample float) (w' : nat),
    Demo.extract 100%nat (Demo.sample Demo.short 10 (lit 7 10) BI_LINEAR 0) 0%nat
    = Ok (v, s', w') /\
    (actual_points s' <= total_points s')%nat /\
    values s' = Some v /\
    length (angles v) = actual_points s' /\
    length (radii v) = actual_points s' /\
    length (intensities v) = actual_points s'.
Proof.
  returned E. eexists _, _, _. split; [reflexivity|].
  destruct (extract_counts_finite_points Demo.PHI_MIN
              Demo.initial_polar_radius Demo.initial_polar_angle Demo.radius
              Demo.integrators 100%nat
              (Demo.sample Demo.short 10 (lit 7 10) BI_LINEAR 0) 0%nat
              eq_refl eq_refl E)
    as (raw & areas & _ & _ & _ & Hle & Hv & Ha & Hr & Hi).
  repeat split; assumption.
Defined.


(** A second [extract] on the flat image returns the cached tensor, even
    without fuel. *)
Lemma extract_is_cached_witness :
  exists (v : Values float) (s' : Sample float) (w' : nat),
    Demo.extract 100%nat (Demo.sample Demo.flat 10 zero BI_LINEAR 0) 0%nat
    = Ok (v, s', w') /\
    Demo.extract 0%nat s' w' = Ok (v, s', w').
Proof.
  returned E. eexists _, _, _. split; [reflexivity|].
  exact (extract_is_cached Demo.PHI_MIN Demo.initial_polar_radius
           Demo.initial_polar_angle Demo.radius Demo.integrators 100%nat 0%nat
           (Demo.sample Demo.flat 10 zero BI_LINEAR 0) 0%nat E).
Defined.

(** The three points of the real sample lie at distance 2 from (1, -1). *)
Lemma coordinates_on_ellipse_witness :
  exists xs ys : list R,
    coordinates Rplus Rmult cos sin Demo.real_sample = Ok (xs, ys) /\
    forall (i : nat) (a r : R),
      nth_error [0%R; (PI / 2)%R; PI] i = Some a ->
      nth_error [2%R; 2%R; 2%R] i = Some r ->
      (0 <= r)%R ->
      exists x y : R,
        nth_error xs i = Some x /\ nth_error ys i = Some y /\
        x = (r * cos (a + PI / 6) + 1)%R /\
        y = (r * sin (a + PI / 6) + -1)%R /\
        sqrt ((x - 1) * (x - 1) + (y - -1) * (y - -1)) = r.
Proof.
  exact (coordinates_on_ellipse Demo.real_sample eq_refl eq_refl).
Defined.

(** C9 (the code at a failing input).  On the plateau image the
    intensities along the ellipse of semi-major axis 10 are all 10 and
    those along the sibling ellipse all 5: the gradient is meaningful
    ([-5]) and its error is defined and exactly zero, so
    [gradient_error / |gradient|] is the defined value zero; yet [update]
    leaves [gradient_relative_error] undefined, because [if
    gradient_error:] takes [0.0] for false. *)
Theorem update_zero_error_is_dropped :
  exists (s' : Sample float) (w' : nat) (g : float),
    Demo.update 100%nat (Demo.sample Demo.plateau 10 zero BI_LINEAR 0) 0%nat
    = Ok (s', w') /\
    gradient s' = Some g /\
    g = of_Z (-5) /\
    gradient_error s' = Some zero /\
    fdiv zero (fabs g) = zero /\
    gradient_relative_error s' = None.
Proof.
  destruct (Demo.update 100%nat
              (Demo.sample Demo.plateau 10 zero BI_LINEAR 0) 0%nat)
    as [[s' w']| |] eqn:E;
    [| exfalso; vm_compute in E; discriminate E ..].
  vm_compute in E. injection E as <- <-.
  eexists _, _, _. split; [reflexivity|].
  split; [reflexivity|].
  unfold zero, of_Z.
  split; [apply f_equal, Qc_is_canon; reflexivity|].
  split; [cbn [gradient_error]; apply f_equal, f_equal, Qc_is_canon;
          reflexivity|].
  split; [|reflexivity].
  vm_compute. apply f_equal, Qc_is_canon. reflexivity.
Qed.

(* ------------------------------------------------------------------ *)
(** * Further properties: masking and clipping *)

Lemma Forall_compress (A : Type) (P : A -> Prop) (mask : list bool)
  (a : list A) :
  Forall P a -> Forall P (compress mask a).
Proof.
  revert a; induction mask as [|b mask IH]; intros a H; [constructor|].
  destruct b, a as [|x a]; simpl; try constructor;
    inversion H; subst; auto.
Qed.

Lemma Forall_filter_true (A : Type) (p : A -> bool) (l : list A) :
  Forall (fun x => p x = true) (filter p l).
Proof.
  induction l as [|x l IH]; simpl; [constructor|].
  destruct (p x) eqn:E; [constructor; assumption | assumption].
Qed.

Lemma filter_all_true (A : Type) (p : A -> bool) (l : list A) :
  Forall (fun x => p x = true) l -> filter p l = l.
Proof.
  induction 1 as [|x l Hx _ IH]; simpl; [reflexivity|].
  rewrite Hx, IH. reflexivity.
Qed.

(** X1.  [_nan_masking] on three aligned series: every intensity it
    keeps is finite, the three series it returns have one length, and
    masking what it returned changes nothing. *)
Theorem nan_masking_finite_aligned_idempotent (a r i : list float) :
  length a = length i -> length r = length i ->
  let '(a', r', i') := _nan_masking a r i in
  Forall (fun x => isfinite x = true) i' /\
  length a' = length i' /\ length r' = length i' /\
  _nan_masking a' r' i' = (a', r', i').
Proof.
  intros Ha Hr.
  pose proof (nan_masking_lengths a r i Ha Hr) as H.
  destruct (_nan_masking a r i) as [[a' r'] i'].
  destruct H as (Ha' & Hr' & ->).
  assert (Hf : Forall (fun x => isfinite x = true) (filter isfinite i))
    by apply Forall_filter_true.
  repeat split; try congruence; try exact Hf.
  unfold _nan_masking.
  assert (Hm : map isfinite (filter isfinite i)
               = repeat true (length (filter isfinite i))).
  { clear. induction i as [|x i IH]; simpl; [reflexivity|].
    destruct (isfinite x) eqn:E; simpl; [rewrite E, IH|]; auto. }
  rewrite Hm, !compress_all; auto.
Qed.

(** X2.  One iteration of [_iter_sigma_clip] keeps exactly the
    intensities inside the closed interval
    [[mean - sclip*sig, mean + sclip*sig]] computed from the series it
    was given, in their order; none of them is NaN. *)
Theorem iter_sigma_clip_within_bounds (s : Sample float)
  (a r i : list float) :
  let lower := fsub (Np.nanmean i) (fmul (sclip s) (Np.nanstd i)) in
  let upper := fadd (Np.nanmean i) (fmul (sclip s) (Np.nanstd i)) in
  let '(_, _, i') := _iter_sigma_clip s a r i in
  i' = filter (fun x => fleb lower x && fleb x upper) i /\
  Forall (fun x => fleb lower x = true /\ fleb x upper = true /\
                   isnan x = false) i'.
Proof.
  unfold _iter_sigma_clip, fgeb. rewrite compress_mask_self.
  split; [reflexivity|].
  eapply Forall_impl; [|apply Forall_filter_true].
  intros x Hx. cbv beta in Hx. apply andb_true_iff in Hx.
  destruct Hx as [H1 H2]. repeat split; try assumption.
  destruct x; try reflexivity. rewrite fleb_nan_r in H1. discriminate.
Qed.

(* ------------------------------------------------------------------ *)
(** * Further properties: the walk and [extract] *)

Lemma sigma_clip_nil (s : Sample float) : _sigma_clip s [] [] [] = ([], [], []).
Proof.
  unfold _sigma_clip. destruct (0 <? nclip s)%Z; [|reflexivity].
  induction (Z.to_nat (nclip s)) as [|k IH]; [reflexivity | exact IH].
Qed.

(** Clipping selects: whatever holds of every angle holds of every angle
    it keeps. *)
Lemma sigma_clip_Forall_angles (P : float -> Prop) (s : Sample float)
  (a r i : list float) :
  Forall P a ->
  let '(a', _, _) := _sigma_clip s a r i in Forall P a'.
Proof.
  intros H. unfold _sigma_clip. destruct (0 <? nclip s)%Z; [|exact H].
  revert a r i H. induction (Z.to_nat (nclip s)) as [|k IH];
    intros a r i H; [exact H|].
  cbn [sigma_clip_loop]. unfold _iter_sigma_clip at 1.
  apply IH. apply Forall_compress. exact H.
Qed.

Section ExtractProperties.

Variable PHI_MIN : Qc.
Variable initial_polar_radius : Geometry float -> float.
Variable initial_polar_angle : Geometry float -> float.
Variable radius : Geometry float -> float -> float.
Variable integrators : IntegrMode -> Strategy.

Local Abbreviation walk_ := (walk PHI_MIN radius integrators).
Local Abbreviation select_integrator_ :=
  (select_integrator initial_polar_radius initial_polar_angle integrators).
Local Abbreviation scan_ :=
  (scan PHI_MIN initial_polar_radius initial_polar_angle radius integrators).
Local Abbreviation _extract_ :=
  (_extract PHI_MIN initial_polar_radius initial_polar_angle radius
     integrators).
Local Abbreviation extract_ :=
  (extract PHI_MIN initial_polar_radius initial_polar_angle radius
     integrators).

Lemma select_integrator_calls (s : Sample float) (w : nat) :
  exists m : IntegrMode,
    select_integrator_ s w
    = Ok (new_integrator m (image s) (geometry s), (w + probes s)%nat).
Proof.
  unfold select_integrator, probes. destruct (is_area _).
  - unfold integrate, bind, tick, ret. cbv beta iota.
    replace (w + 1)%nat with (S w) by lia.
    match goal with
    | |- context [if ?c then _ else _] => destruct c
    end; eexists; reflexivity.
  - rewrite Nat.add_0_r. eexists; reflexivity.
Qed.

(** X4.  On an empty cache, [extract] calls [integrate] once per
    attempted point, plus once for the probe of an area mode:
    the call counter grows by [total_points] (+ 1 in mean or median
    mode). *)
Theorem extract_integrator_calls (fuel : nat) (s : Sample float) (w : nat)
  (v : Values float) (s' : Sample float) (w' : nat) :
  values s = None ->
  extract_ fuel s w = Ok (v, s', w') ->
  w' = (w + probes s + total_points s')%nat.
Proof.
  intros Hv H. unfold extract in H. rewrite Hv in H.
  unfold _extract, bind in H.
  destruct (scan_ fuel s w) as [[[[raw areas] total] w1]| |] eqn:E;
    try discriminate.
  destruct (_nan_masking _ _ _) as [[a r] i].
  destruct (_sigma_clip _ a r i) as [[a1 r1] i1].
  unfold ret in H. injection H as <- <- <-. cbn [total_points
    set_values set_actual_points set_sector_area set_total_points].
  unfold scan, bind in E.
  destruct (select_integrator_calls s w) as (m & Em). rewrite Em in E.
  apply walk_buffers_aligned in E.
  destruct E as (k & -> & -> & _). lia.
Qed.

(** X5.  When the initial polar angle is not within the loop bound (it
    is larger, or NaN), the walk is empty: whatever the fuel, [extract]
    returns a tensor without points, [total_points = actual_points = 0],
    and the sector area is the mean of no area, NaN; the only integrator
    call is the probe of an area mode. *)
Theorem extract_empty_walk (fuel : nat) (s : Sample float) (w : nat) :
  values s = None ->
  fleb (initial_polar_angle (geometry s)) (phi_max PHI_MIN) = false ->
  exists s' : Sample float,
    extract_ fuel s w = Ok (mkValues [] [] [], s', (w + probes s)%nat) /\
    values s' = Some (mkValues [] [] []) /\
    total_points s' = 0%nat /\ actual_points s' = 0%nat /\
    sector_area s' = Some NaN.
Proof.
  intros Hv Hphi. unfold extract. rewrite Hv.
  unfold _extract, scan, bind.
  destruct (select_integrator_calls s w) as (m & ->).
  destruct fuel; cbn [walk]; rewrite Hphi; unfold ret.
  all: cbn [new_integrator i_angles i_radii i_intensities].
  all: change (_nan_masking [] [] [])
         with (@nil float, @nil float, @nil float).
  all: cbv beta iota; rewrite sigma_clip_nil.
  all: eexists; split; [reflexivity|]; repeat split.
Qed.

(** Every angle the walk appends passed the loop test. *)
Lemma walk_angles_within_bound (g : Geometry float) (fuel : nat) :
  forall (i : Integrator) (areas : list float) (total : nat)
         (r phi : float) (w : nat) i' areas' total' w',
    Forall (fun a => fleb a (phi_max PHI_MIN) = true) (i_angles i) ->
    walk_ fuel g i areas total r phi w = Ok (i', areas', total', w') ->
    Forall (fun a => fleb a (phi_max PHI_MIN) = true) (i_angles i').
Proof.
  induction fuel as [|fuel IH];
    intros i areas total r phi w i' areas' total' w' Hall H;
    cbn [walk] in H;
    destruct (fleb phi (phi_max PHI_MIN)) eqn:E;
    unfold out_of_fuel, ret in H; try discriminate.
  - injection H as <- <- <- <-. exact Hall.
  - unfold integrate, bind, tick, ret in H. cbv beta iota in H.
    apply IH in H; [exact H|]. cbn [i_angles].
    apply Forall_app. split; [exact Hall|]. constructor; [exact E|constructor].
  - injection H as <- <- <- <-. exact Hall.
Qed.

(** X6.  Every angle of the tensor [extract] computes is within the loop
    bound [2*pi + PHI_MIN] (so none is NaN). *)
Theorem extract_angles_within_bound (fuel : nat) (s : Sample float)
  (w : nat) (v : Values float) (s' : Sample float) (w' : nat) :
  values s = None ->
  extract_ fuel s w = Ok (v, s', w') ->
  Forall (fun a => fleb a (phi_max PHI_MIN) = true) (angles v).
Proof.
  intros Hv H. unfold extract in H. rewrite Hv in H.
  unfold _extract, bind in H.
  destruct (scan_ fuel s w) as [[[[raw areas] total] w1]| |] eqn:E;
    try discriminate.
  assert (Hraw : Forall (fun a => fleb a (phi_max PHI_MIN) = true)
                   (i_angles raw)).
  { unfold scan, bind in E.
    destruct (select_integrator_calls s w) as (m & Em). rewrite Em in E.
    apply walk_angles_within_bound in E; [exact E | constructor]. }
  unfold _nan_masking in H.
  match type of H with
  | context [_sigma_clip ?s0 ?a ?r ?i] =>
      pose proof (@sigma_clip_Forall_angles _ s0 a r i
                    (Forall_compress _ Hraw)) as Hc;
      destruct (_sigma_clip s0 a r i) as [[a1 r1] i1]
  end.
  unfold ret in H. injection H as <- <- <-. exact Hc.
Qed.

(** X7.  [extract] changes nothing of a sample but its cache and, when
    it computes, [sector_area], [total_points] and [actual_points]: the
    image, the mode, the geometry, the clip settings, the mean and the
    three gradient attributes stay as they were. *)
Theorem extract_preserves_configuration (fuel : nat) (s : Sample float)
  (w : nat) (v : Values float) (s' : Sample float) (w' : nat) :
  extract_ fuel s w = Ok (v, s', w') ->
  image s' = image s /\ integrmode s' = integrmode s /\
  geometry s' = geometry s /\ sclip s' = sclip s /\ nclip s' = nclip s /\
  mean s' = mean s /\ gradient s' = gradient s /\
  gradient_error s' = gradient_error s /\
  gradient_relative_error s' = gradient_relative_error s.
Proof.
  intros H. destruct (values s) as [v0|] eqn:Hv.
  - unfold extract in H. rewrite Hv in H. unfold ret in H.
    injection H as <- <- <-. repeat split.
  - apply extract_shape in H; [|exact Hv].
    destruct H as (sa & tp & ap & ->). repeat split.
Qed.

(** The engine does not read the call counter: started [d] calls later,
    a computation does the same and ends [d] calls later. *)
Lemma walk_shift (g : Geometry float) (d fuel : nat) :
  forall (i : Integrator) (areas : list float) (total : nat)
         (r phi : float) (w : nat),
    walk_ fuel g i areas total r phi (w + d)%nat
    = shift_calls d (walk_ fuel g i areas total r phi w).
Proof.
  induction fuel as [|fuel IH]; intros i areas total r phi w; cbn [walk];
    destruct (fleb phi (phi_max PHI_MIN)); try reflexivity.
  unfold integrate, bind, tick, ret. cbv beta iota.
  apply (IH _ _ _ _ _ (S w)).
Qed.

Lemma scan_shift (d fuel : nat) (s : Sample float) (w : nat) :
  scan_ fuel s (w + d)%nat = shift_calls d (scan_ fuel s w).
Proof.
  unfold scan, bind.
  destruct (select_integrator_calls s w) as (m & Em).
  destruct (select_integrator_calls s (w + d)) as (m' & Em').
  assert (m' = m) as ->.
  { unfold select_integrator in Em, Em'.
    destruct (is_area _).
    - unfold integrate, bind, tick, ret in Em, Em'. cbv beta iota in Em, Em'.
      match type of Em with
      | context [if ?c then _ else _] => destruct c
      end; injection Em as <-; injection Em' as <-; reflexivity.
    - injection Em as <-. injection Em' as <-. reflexivity. }
  rewrite Em, Em'.
  replace (w + d + probes s)%nat with (w + probes s + d)%nat by lia.
  apply walk_shift.
Qed.

Lemma extract_shift (d fuel : nat) (s : Sample float) (w : nat) :
  values s = None ->
  extract_ fuel s (w + d)%nat = shift_calls d (extract_ fuel s w).
Proof.
  intros Hv. unfold extract. rewrite Hv. unfold _extract, bind.
  rewrite scan_shift.
  destruct (scan_ fuel s w) as [[[[raw areas] total] w1]| |];
    try reflexivity.
  cbn [shift_calls].
  destruct (_nan_masking _ _ _) as [[a r] i].
  destruct (_sigma_clip _ a r i) as [[a1 r1] i1].
  reflexivity.
Qed.

(** With its cache cleared, the sample [extract] returned computes what
    the original sample computed. *)
Lemma extract_reset_ext (fuel : nat) (s : Sample float) (w : nat)
  (v : Values float) (sa : option float) (tp ap : nat) :
  values s = None ->
  extract_ fuel
    (set_values None
       (mkSample (image s) (integrmode s) (geometry s) (sclip s) (nclip s)
          (Some v) (mean s) (gradient s) (gradient_error s)
          (gradient_relative_error s) sa tp ap)) w
  = extract_ fuel s w.
Proof.
  intros Hv. destruct s. cbn in Hv. subst. reflexivity.
Qed.

(** X8.  Clearing the cache ([sample.values = None]) and extracting
    again recomputes: the second [extract] returns the same tensor,
    leaves the sample as the first one left it, and makes as many
    integrator calls as the first. *)
Theorem extract_after_reset (fuel : nat) (s : Sample float) (w w2 : nat)
  (v : Values float) (s' : Sample float) (w' : nat) :
  values s = None ->
  extract_ fuel s w = Ok (v, s', w') ->
  extract_ fuel (set_values None s') w2
  = Ok (v, s', (w2 + (w' - w))%nat).
Proof.
  intros Hv H.
  pose proof H as K. apply extract_shape in K; [|exact Hv].
  destruct K as (sa & tp & ap & Es').
  rewrite Es' at 1. rewrite extract_reset_ext by exact Hv.
  replace w2 with (0 + w2)%nat at 1 by lia.
  replace w with (0 + w)%nat in H by lia.
  rewrite extract_shift in * by exact Hv.
  destruct (extract_ fuel s 0%nat) as [[[v0 s0] k]| |]; try discriminate.
  cbn [shift_calls] in *. injection H as <- <- <-.
  f_equal. f_equal. lia.
Qed.

(** The angle after a step is at most [0.5] beyond the angle before it,
    when both are within the loop bound. *)
Lemma step_capped (phi step : float) :
  fleb phi (phi_max PHI_MIN) = true ->
  fleb (fadd phi (py_min step (lit 5 10))) (phi_max PHI_MIN) = true ->
  fleb (fadd phi (py_min step (lit 5 10))) (fadd phi (lit 5 10)) = true.
Proof.
  rewrite phi_max_Fin. intros H1 H2.
  assert (Hm : py_min step (lit 5 10) = lit 5 10 \/
               py_min step (lit 5 10) = NaN \/
               py_min step (lit 5 10) = NInf \/
               exists q, py_min step (lit 5 10) = Fin q /\
                         (q <= Q2Qc (5 # 10))%Qc).
  { unfold py_min. destruct (fltb (lit 5 10) step) eqn:E; [auto|].
    destruct step as [| | |q]; auto; [discriminate E|].
    right; right; right. exists q. split; [reflexivity|].
    apply Qcnot_lt_le. intros C. apply fltb_Fin in C.
    unfold lit in E. congruence. }
  destruct phi as [| | |p]; try discriminate.
  - destruct Hm as [Hm | [Hm | [Hm | (q & Hm & _)]]]; rewrite Hm in *;
      try reflexivity; discriminate H2.
  - destruct Hm as [Hm | [Hm | [Hm | (q & Hm & Hq)]]]; rewrite Hm in *.
    + apply fleb_refl.
    + discriminate H2.
    + reflexivity.
    + unfold lit. cbn [fadd]. apply fleb_Fin.
      unfold Qcle in *. rewrite !this_plus. lra.
Qed.

(** The angles a walk appends, from the angle it starts at. *)
Lemma walk_path (g : Geometry float) (fuel : nat) :
  forall (i : Integrator) (areas : list float) (total : nat)
         (r phi : float) (w : nat) i' areas' total' w',
    walk_ fuel g i areas total r phi w = Ok (i', areas', total', w') ->
    exists new : list float,
      i_angles i' = i_angles i ++ new /\
      path_from phi new /\
      (new <> [] -> fleb phi (phi_max PHI_MIN) = true).
Proof.
  induction fuel as [|fuel IH];
    intros i areas total r phi w i' areas' total' w' H;
    cbn [walk] in H;
    destruct (fleb phi (phi_max PHI_MIN)) eqn:E;
    unfold out_of_fuel, ret in H; try discriminate.
  - injection H as <- <- <- <-. exists []. rewrite app_nil_r.
    repeat split; [constructor | congruence].
  - unfold integrate, bind, tick, ret in H. cbv beta iota in H.
    match type of H with
    | walk _ _ _ _ _ _ _ _ _ ?p1 _ = _ => set (phi1 := p1) in *
    end.
    apply IH in H. destruct H as (new & Hn & Hp & Hin).
    cbn [i_angles] in Hn. rewrite <- app_assoc in Hn.
    exists (phi :: new). split; [exact Hn|]. split; [|reflexivity].
    destruct new as [|phi' rest]; [constructor|].
    assert (phi' = phi1) by (inversion Hp; reflexivity). subst phi'.
    constructor; [|exact Hp].
    unfold phi1. apply step_capped; [exact E|].
    apply Hin. discriminate.
  - injection H as <- <- <- <-. exists []. rewrite app_nil_r.
    repeat split; [constructor | congruence].
Qed.

(** X10.  The raw series of a scan starts at the initial polar angle of
    the geometry, and no angle of it is more than [0.5] radians beyond
    the angle before it. *)
Theorem scan_path (fuel : nat) (s : Sample float) (w : nat)
  (raw : Integrator) (areas : list float) (total w' : nat) :
  scan_ fuel s w = Ok (raw, areas, total, w') ->
  path_from (initial_polar_angle (geometry s)) (i_angles raw).
Proof.
  unfold scan, bind. intros H.
  destruct (select_integrator_calls s w) as (m & Em). rewrite Em in H.
  apply walk_path in H. destruct H as (new & Hn & Hp & _).
  cbn [new_integrator i_angles app] in Hn. rewrite Hn. exact Hp.
Qed.

End ExtractProperties.

(* ------------------------------------------------------------------ *)
(** * Further properties: the gradient *)

(** X11.  When both centre coordinates of a sample are non-zero, the
    sibling sample of [_get_gradient] has the geometry of the sample
    with the semi-major axis [(1 + step) * sma]; it starts with an empty
    cache and the clip settings, image and mode of the sample. *)
Theorem gradient_sample_keeps_center (s : Sample float) (step : float) :
  x0 (geometry s) <> zero -> y0 (geometry s) <> zero ->
  geometry (gradient_sample s step)
  = set_sma (fmul (fadd (lit 1 1) step) (sma (geometry s))) (geometry s) /\
  values (gradient_sample s step) = None /\
  image (gradient_sample s step) = image s /\
  integrmode (gradient_sample s step) = integrmode s /\
  sclip (gradient_sample s step) = sclip s /\
  nclip (gradient_sample s step) = nclip s.
Proof.
  intros Hx Hy. repeat split.
  unfold gradient_sample, Sample_init. cbn [geometry truthy_opt].
  destruct (truthy (x0 (geometry s))) eqn:Ex;
    [|apply truthy_false_iff in Ex; contradiction].
  destruct (truthy (y0 (geometry s))) eqn:Ey;
    [|apply truthy_false_iff in Ey; contradiction].
  reflexivity.
Qed.

(** X12.  When a centre coordinate of a sample is exactly zero, the
    sibling sample of [_get_gradient] is not centred on the sample's
    centre: the constructor takes the zero for a missing coordinate and
    centres the sibling on the image centre, [(shape[0]/2, shape[1]/2)]. *)
Theorem gradient_sample_recentred (s : Sample float) (step : float) :
  x0 (geometry s) = zero \/ y0 (geometry s) = zero ->
  x0 (geometry (gradient_sample s step))
  = fdiv (of_nat (fst (shape (image s)))) (lit 2 1) /\
  y0 (geometry (gradient_sample s step))
  = fdiv (of_nat (snd (shape (image s)))) (lit 2 1).
Proof.
  intros H. unfold gradient_sample, Sample_init.
  cbn [geometry truthy_opt].
  assert (Hf : negb (truthy (x0 (geometry s)))
               || negb (truthy (y0 (geometry s))) = true).
  { apply orb_true_iff.
    destruct H as [H|H]; [left|right]; apply negb_true_iff,
      truthy_false_iff, H. }
  rewrite Hf. split; reflexivity.
Qed.

Section GradientProperties.

Variable PHI_MIN : Qc.
Variable initial_polar_radius : Geometry float -> float.
Variable initial_polar_angle : Geometry float -> float.
Variable radius : Geometry float -> float -> float.
Variable integrators : IntegrMode -> Strategy.

Local Abbreviation walk_ := (walk PHI_MIN radius integrators).
Local Abbreviation select_integrator_ :=
  (select_integrator initial_polar_radius initial_polar_angle integrators).
Local Abbreviation scan_ :=
  (scan PHI_MIN initial_polar_radius initial_polar_angle radius integrators).
Local Abbreviation extract_ :=
  (extract PHI_MIN initial_polar_radius initial_polar_angle radius
     integrators).
Local Abbreviation _get_gradient_ :=
  (_get_gradient PHI_MIN initial_polar_radius initial_polar_angle radius
     integrators).
Local Abbreviation update_ :=
  (update PHI_MIN initial_polar_radius initial_polar_angle radius
     integrators).






End GradientProperties.

(* ------------------------------------------------------------------ *)
(** * The fallback chain on a flat image, and the empty series *)

(** A series whose entries are all [c] is, when it is not empty, a
    constant series. *)
Lemma Forall_constant (c : float) (l : list float) :
  Forall (fun x => x = c) l -> l <> [] ->
  exists n : nat, l = repeat c (S n).
Proof.
  intros H Hne. destruct l as [|x l]; [congruence|].
  exists (length l). inversion H as [|? ? Hx Hl]; subst.
  cbn [repeat]. f_equal. clear H Hne.
  induction Hl as [|y l Hy _ IH]; [reflexivity|].
  subst y. cbn [length repeat]. f_equal. exact IH.
Qed.

(** What is finite in a series of values that are [c] or not finite. *)
Lemma filter_finite_constant (c : Qc) (l : list float) :
  Forall (fun x => x = Fin c \/ isfinite x = false) l ->
  Forall (fun x => x = Fin c) (filter isfinite l).
Proof.
  induction 1 as [|x l Hx _ IH]; cbn [filter]; [constructor|].
  destruct (isfinite x) eqn:E; [|exact IH].
  constructor; [|exact IH].
  destruct Hx as [Hx|Hx]; [exact Hx | congruence].
Qed.

(** Clipping selects: whatever holds of every intensity holds of every
    intensity it keeps. *)
Lemma sigma_clip_Forall_intensities (P : float -> Prop) (s : Sample float)
  (a r i : list float) :
  Forall P i ->
  let '(_, _, i') := _sigma_clip s a r i in Forall P i'.
Proof.
  intros H. unfold _sigma_clip. destruct (0 <? nclip s)%Z; [|exact H].
  revert a r i H. induction (Z.to_nat (nclip s)) as [|k IH];
    intros a r i H; [exact H|].
  cbn [sigma_clip_loop]. unfold _iter_sigma_clip at 1.
  apply IH. apply Forall_compress. exact H.
Qed.

Section FlatImage.

Variable PHI_MIN : Qc.
Variable initial_polar_radius : Geometry float -> float.
Variable initial_polar_angle : Geometry float -> float.
Variable radius : Geometry float -> float -> float.
Variable integrators : IntegrMode -> Strategy.

Local Abbreviation walk_ := (walk PHI_MIN radius integrators).
Local Abbreviation scan_ :=
  (scan PHI_MIN initial_polar_radius initial_polar_angle radius integrators).
Local Abbreviation extract_ :=
  (extract PHI_MIN initial_polar_radius initial_polar_angle radius
     integrators).
Local Abbreviation _get_gradient_ :=
  (_get_gradient PHI_MIN initial_polar_radius initial_polar_angle radius
     integrators).
Local Abbreviation update_ :=
  (update PHI_MIN initial_polar_radius initial_polar_angle radius
     integrators).
Local Abbreviation flat_image_ := (flat_image integrators).

(** Over a flat image every intensity the walk appends is the constant
    or is not finite. *)
Lemma walk_flat_image (c : Qc) (g : Geometry float) (fuel : nat) :
  forall (i : Integrator) (areas : list float) (total : nat)
         (r phi : float) (w : nat) i' areas' total' w',
    flat_image_ c (i_image i) ->
    Forall (fun x => x = Fin c \/ isfinite x = false) (i_intensities i) ->
    walk_ fuel g i areas total r phi w = Ok (i', areas', total', w') ->
    Forall (fun x => x = Fin c \/ isfinite x = false) (i_intensities i').
Proof.
  induction fuel as [|fuel IH];
    intros i areas total r phi w i' areas' total' w' Hflat Hall H;
    cbn [walk] in H;
    destruct (fleb phi (phi_max PHI_MIN));
    unfold out_of_fuel, ret in H; try discriminate.
  - injection H as <- <- <- <-. exact Hall.
  - unfold integrate, bind, tick, ret in H. cbv beta iota in H.
    apply IH in H; [exact H | exact Hflat |].
    cbn [i_intensities]. apply Forall_app. split; [exact Hall|].
    constructor; [apply Hflat | constructor].
  - injection H as <- <- <- <-. exact Hall.
Qed.

(** Over a flat image the tensor [extract] returns holds the constant
    and nothing else: what is off the array is masked, and clipping only
    selects. *)
Lemma extract_flat_image (c : Qc) (fuel : nat) (s : Sample float) (w : nat)
  (v : Values float) (s' : Sample float) (w' : nat) :
  flat_image_ c (image s) ->
  (forall v0 : Values float,
     values s = Some v0 -> Forall (fun x => x = Fin c) (intensities v0)) ->
  extract_ fuel s w = Ok (v, s', w') ->
  Forall (fun x => x = Fin c) (intensities v).
Proof.
  intros Hflat Hcache H. unfold extract in H.
  destruct (values s) as [v0|] eqn:Hv.
  - unfold ret in H. injection H as <- _ _. apply Hcache. reflexivity.
  - unfold _extract, bind in H.
    destruct (scan_ fuel s w) as [[[[raw areas] total] w1]| |] eqn:E;
      try discriminate.
    assert (Hraw : Forall (fun x => x = Fin c \/ isfinite x = false)
                     (i_intensities raw)).
    { unfold scan, bind in E.
      destruct (select_integrator_fresh initial_polar_radius
                  initial_polar_angle integrators s w) as (m & w0 & Em).
      rewrite Em in E.
      apply walk_flat_image with (c := c) in E;
        [exact E | exact Hflat | constructor]. }
    unfold _nan_masking in H. rewrite compress_mask_self in H.
    apply filter_finite_constant in Hraw.
    match type of H with
    | context [_sigma_clip ?s0 ?a ?r ?i] =>
        pose proof (@sigma_clip_Forall_intensities _ s0 a r i Hraw) as Hc;
        destruct (_sigma_clip s0 a r i) as [[a1 r1] i1]
    end.
    unfold ret in H. injection H as <- _ _. exact Hc.
Qed.

(** An [extract] that computes a tensor with a point in it has called
    the integrator. *)
Lemma extract_calls_positive (fuel : nat) (s : Sample float) (w : nat)
  (v : Values float) (s' : Sample float) (w' : nat) :
  values s = None ->
  extract_ fuel s w = Ok (v, s', w') ->
  intensities v <> [] ->
  (w < w')%nat.
Proof.
  intros Hv H Hne. unfold extract in H. rewrite Hv in H.
  unfold _extract, bind in H.
  destruct (scan_ fuel s w) as [[[[raw areas] total] w1]| |] eqn:E;
    try discriminate.
  pose proof E as Hal. apply scan_buffers_aligned in Hal.
  destruct Hal as (Ha & Hr & Hi & _).
  unfold scan, bind in E.
  destruct (select_integrator_calls initial_polar_radius
              initial_polar_angle integrators s w) as (m & Em).
  rewrite Em in E.
  apply walk_buffers_aligned in E.
  destruct E as (k & Hk & -> & _). cbn [Nat.add] in Hk. subst total.
  destruct k as [|k].
  - exfalso. apply Hne.
    destruct (i_angles raw); [|discriminate Ha].
    destruct (i_radii raw); [|discriminate Hr].
    destruct (i_intensities raw); [|discriminate Hi].
    change (_nan_masking [] [] []) with (@nil float, @nil float, @nil float)
      in H.
    cbv beta iota in H. rewrite sigma_clip_nil in H.
    unfold ret in H. injection H as <- _ _. reflexivity.
  - destruct (_nan_masking _ _ _) as [[a0 r0] i0].
    destruct (_sigma_clip _ a0 r0 i0) as [[a1 r1] i1].
    unfold ret in H. injection H as _ _ <-. lia.
Qed.

(** Between two constant series at one level the candidate gradient is
    zero. *)
Lemma get_gradient_flat (c a b : Qc) (fuel : nat) (s : Sample float)
  (v : Values float) (w : nat) (vg : Values float) (sg : Sample float)
  (w2 n k : nat) :
  values s = Some v -> intensities v = repeat (Fin c) (S n) ->
  mean s = Some (Fin c) ->
  sma (geometry s) = Fin a -> a <> Q2Qc 0 -> b <> Q2Qc 0 ->
  extract_ fuel (gradient_sample s (Fin b)) w = Ok (vg, sg, w2) ->
  intensities vg = repeat (Fin c) (S k) ->
  exists ge : float, _get_gradient_ fuel s (Fin b) w = Ok (zero, ge, s, w2).
Proof.
  intros Hv Hi Hm Ha Hna Hnb E Eg.
  unfold _get_gradient, bind. rewrite E, Hm.
  unfold extract at 1. rewrite Hv. unfold ret.
  rewrite Eg, mean_repeat, Ha.
  cbn [fsub fneg fadd]. rewrite Qcplus_opp_r.
  rewrite !fdiv_Fin by assumption.
  replace (Q2Qc 0 / a / b)%Qc with (Q2Qc 0) by (field; auto).
  eexists. reflexivity.
Qed.


(** C3 (amended).  For a sample over a constant, fully finite image
    whose intensity is the integer [k], with no gradient recorded, a
    finite non-zero [sma] and [astep], and a cache that is empty or holds
    a series of this image: once the walks over its own ellipse and over
    the two sibling ellipses of [_get_gradient] return, each with a point
    on the array, [update] returns.  The candidate gradient at step
    [astep], from the sibling sample it extracts, is zero, which is not
    more negative than [-0.05 / 3]; the retry at [2 * astep], from the
    second sibling, is zero again; and [update] sets
    [gradient = -0.05 * 0.8 = -0.04] and leaves [gradient_error] and
    [gradient_relative_error] undefined.

    The three bounds [|k| * len < 2^53] are not needed by the exact
    arithmetic of this development.  They keep the statement to the
    series whose sums, hence whose means and deviations, binary64
    computes without rounding or overflow, so that [np.mean] is [k] and
    [np.std] is zero in [sample.py] as they are here. *)
Theorem update_flat_fallback (k : Z) (a b : Qc) (fuel1 : nat)
  (s : Sample float) (w : nat) (v0 v1 v2 : Values float)
  (s0 g1 g2 : Sample float) (w1 w2 w3 : nat) :
  flat_image_ (Q2Qc (inject_Z k)) (image s) ->
  (forall v : Values float,
     values s = Some v -> Forall (fun x => x = of_Z k) (intensities v)) ->
  gradient s = None ->
  sma (geometry s) = Fin a -> a <> Q2Qc 0 ->
  astep (geometry s) = Fin b -> b <> Q2Qc 0 ->
  extract_ fuel1 s w = Ok (v0, s0, w1) ->
  intensities v0 <> [] ->
  extract_ fuel1 (gradient_sample s (astep (geometry s))) w1
  = Ok (v1, g1, w2) ->
  intensities v1 <> [] ->
  extract_ fuel1
    (gradient_sample s (fmul (lit 2 1) (astep (geometry s)))) w2
  = Ok (v2, g2, w3) ->
  intensities v2 <> [] ->
  (Z.abs k * Z.of_nat (length (intensities v0)) < 2 ^ 53)%Z ->
  (Z.abs k * Z.of_nat (length (intensities v1)) < 2 ^ 53)%Z ->
  (Z.abs k * Z.of_nat (length (intensities v2)) < 2 ^ 53)%Z ->
  forall fuel : nat, (fuel1 <= fuel)%nat ->
    exists (s1 s' : Sample float) (ge1 ge2 : float),
      s1 = set_mean (Some (Np.mean (intensities v0))) s0 /\
      _get_gradient_ fuel s1 (astep (geometry s)) w1
        = Ok (zero, ge1, s1, w2) /\
      fgeb zero (fdiv (lit (-5) 100) (lit 3 1)) = true /\
      _get_gradient_ fuel s1 (fmul (lit 2 1) (astep (geometry s))) w2
        = Ok (zero, ge2, s1, w3) /\
      (w1 < w2)%nat /\ (w2 < w3)%nat /\
      update_ fuel s w = Ok (s', w3) /\
      mean s' = Some (of_Z k) /\
      gradient s' = Some (fmul (lit (-5) 100) (lit 8 10)) /\
      fmul (lit (-5) 100) (lit 8 10) = lit (-4) 100 /\
      gradient_error s' = None /\
      gradient_relative_error s' = None.
Proof.
  intros Hflat Hcache Hg Ha Hna Hb Hnb E0 Hne0 E1 Hne1 E2 Hne2 _ _ _
    fuel Hfuel.
  change (of_Z k) with (Fin (Q2Qc (inject_Z k))) in *.
  set (c := Q2Qc (inject_Z k)) in *.
  rewrite Hb in *.
  assert (H2b : fmul (lit 2 1) (Fin b) = Fin (Q2Qc 2 * b)%Qc) by reflexivity.
  assert (Hn2b : (Q2Qc 2 * b)%Qc <> Q2Qc 0).
  { intros E. apply Qcmult_integral in E. destruct E as [E|E];
      [discriminate E | contradiction]. }
  rewrite H2b in *.
  apply extract_fuel_mono with (fuel' := fuel) in E0; [|exact Hfuel].
  apply extract_fuel_mono with (fuel' := fuel) in E1; [|exact Hfuel].
  apply extract_fuel_mono with (fuel' := fuel) in E2; [|exact Hfuel].
  (* the three series *)
  assert (F0 : Forall (fun x => x = Fin c) (intensities v0)).
  { eapply extract_flat_image; [| |exact E0]; assumption. }
  assert (F1 : Forall (fun x => x = Fin c) (intensities v1)).
  { eapply extract_flat_image; [| |exact E1];
      [exact Hflat | intros v H; discriminate H]. }
  assert (F2 : Forall (fun x => x = Fin c) (intensities v2)).
  { eapply extract_flat_image; [| |exact E2];
      [exact Hflat | intros v H; discriminate H]. }
  destruct (Forall_constant F0 Hne0) as (n0 & Ev0).
  destruct (Forall_constant F1 Hne1) as (n1 & Ev1).
  destruct (Forall_constant F2 Hne2) as (n2 & Ev2).
  assert (Hw12 : (w1 < w2)%nat).
  { eapply extract_calls_positive; [|exact E1|exact Hne1]. reflexivity. }
  assert (Hw23 : (w2 < w3)%nat).
  { eapply extract_calls_positive; [|exact E2|exact Hne2]. reflexivity. }
  (* the sample after [extract] and [self.mean = ...] *)
  pose proof E0 as K. apply extract_keeps in K.
  destruct K as (Kv & Ki & Km & Kg & Ks & Kn & Kmean & Kgrad).
  set (s1 := set_mean (Some (Np.mean (intensities v0))) s0).
  assert (G1 : gradient_sample s1 (Fin b) = gradient_sample s (Fin b))
    by (apply gradient_sample_ext; assumption).
  assert (G2 : gradient_sample s1 (Fin (Q2Qc 2 * b)%Qc)
               = gradient_sample s (Fin (Q2Qc 2 * b)%Qc))
    by (apply gradient_sample_ext; assumption).
  assert (Hm1 : mean s1 = Some (Fin c))
    by (unfold s1; cbn [mean set_mean]; rewrite Ev0, mean_repeat;
        reflexivity).
  assert (Ha1 : sma (geometry s1) = Fin a)
    by (unfold s1; cbn [geometry set_mean]; rewrite Kg; exact Ha).
  assert (Hv1 : values s1 = Some v0) by exact Kv.
  rewrite <- G1 in E1. rewrite <- G2 in E2.
  assert (X1 : exists ge1 : float,
             _get_gradient_ fuel s1 (Fin b) w1 = Ok (zero, ge1, s1, w2)).
  { eapply get_gradient_flat; [exact Hv1 | exact Ev0 | exact Hm1 | exact Ha1
                              | exact Hna | exact Hnb | exact E1 | exact Ev1]. }
  assert (X2 : exists ge2 : float,
             _get_gradient_ fuel s1 (Fin (Q2Qc 2 * b)%Qc) w2
             = Ok (zero, ge2, s1, w3)).
  { eapply get_gradient_flat; [exact Hv1 | exact Ev0 | exact Hm1 | exact Ha1
                              | exact Hna | exact Hn2b | exact E2 | exact Ev2]. }
  destruct X1 as (ge1 & X1). destruct X2 as (ge2 & X2).
  assert (Hcmp : fgeb zero (fdiv (lit (-5) 100) (lit 3 1)) = true)
    by reflexivity.
  assert (Hgrad1 : gradient s1 = None)
    by (unfold s1; cbn [gradient set_mean]; rewrite Kgrad; exact Hg).
  eexists s1, _, ge1, ge2.
  split; [reflexivity|].
  split; [exact X1|]. split; [exact Hcmp|]. split; [exact X2|].
  split; [exact Hw12|]. split; [exact Hw23|].
  split.
  - unfold update, bind. rewrite Hb, E0. fold s1. rewrite X1.
    rewrite Hgrad1. cbn [truthy_opt]. rewrite Hcmp.
    rewrite H2b, X2. rewrite Hcmp. cbn [truthy_opt]. unfold ret.
    reflexivity.
  - cbn [mean gradient gradient_error gradient_relative_error
           set_gradients].
    rewrite Hm1. repeat split.
Qed.


End FlatImage.

(** On the concrete instance a row of tens is a flat image: every
    integrator gives 10 on the array and NaN off it. *)
Lemma row_of_tens_flat (n : nat) :
  flat_image Demo.integrators (Q2Qc (inject_Z 10))
    (Demo.row_image (repeat 10%Z n)).
Proof.
  assert (N : forall i : nat,
             nth i (map of_Z (repeat 10%Z n)) NaN = of_Z 10 \/
             nth i (map of_Z (repeat 10%Z n)) NaN = NaN).
  { intros i.
    destruct (nth_in_or_default i (map of_Z (repeat 10%Z n)) NaN) as [H|H];
      [left | right; exact H].
    apply in_map_iff in H. destruct H as (z & <- & Hz).
    apply repeat_spec in Hz. subst z. reflexivity. }
  assert (P : forall r : float,
             Demo.pixel (Demo.row_image (repeat 10%Z n)) r = of_Z 10 \/
             Demo.pixel (Demo.row_image (repeat 10%Z n)) r = NaN).
  { intros r. unfold Demo.pixel, Demo.row_image. cbn [hd].
    destruct r as [| | |q]; auto.
    destruct (Qfloor q); auto. }
  intros m g r phi.
  destruct m; cbn [Demo.integrators Demo.bilinear Demo.nearest
                   Demo.area_mean intensity_at].
  - destruct (P r) as [-> | ->]; [left | right]; reflexivity.
  - destruct (P r) as [-> | ->];
      destruct (P (fadd r (lit 1 1))) as [-> | ->];
      try (right; reflexivity).
    left. vm_compute. apply f_equal, Qc_is_canon. reflexivity.
  - destruct (P r) as [-> | ->];
      destruct (P (fadd r (lit 1 1))) as [-> | ->];
      try (right; reflexivity).
    left. vm_compute. apply f_equal, Qc_is_canon. reflexivity.
  - destruct (P r) as [-> | ->]; [left | right]; reflexivity.
Qed.

(** On the flat image of value 10, at semi-major axis 10 with step 0.1
    and two clip iterations: the three walks return with points on the
    array, and [update] records the fallback gradient [-0.04]. *)
Lemma update_flat_fallback_witness :
  exists (s' : Sample float) (w' : nat),
    Demo.update 100%nat (Demo.sample Demo.flat 10 zero BI_LINEAR 2) 0%nat
    = Ok (s', w') /\
    mean s' = Some (of_Z 10) /\
    gradient s' = Some (lit (-4) 100) /\
    gradient_error s' = None /\
    gradient_relative_error s' = None.
Proof.
  destruct (Demo.extract 100%nat
              (Demo.sample Demo.flat 10 zero BI_LINEAR 2) 0%nat)
    as [[[v0 s0] w1]| |] eqn:E0;
    [| exfalso; vm_compute in E0; discriminate E0 ..].
  assert (N0 : intensities v0 <> [] /\
               (Z.abs 10 * Z.of_nat (length (intensities v0)) < 2 ^ 53)%Z).
  { pose proof E0 as X. vm_compute in X. injection X as <- _ _.
    split; [discriminate | reflexivity]. }
  destruct N0 as [N0 B0].
  destruct (Demo.extract 100%nat
              (gradient_sample (Demo.sample Demo.flat 10 zero BI_LINEAR 2)
                 (astep (geometry
                           (Demo.sample Demo.flat 10 zero BI_LINEAR 2))))
              w1)
    as [[[v1 g1] w2]| |] eqn:E1;
    [| exfalso; vm_compute in E1; discriminate E1 ..].
  assert (N1 : intensities v1 <> [] /\
               (Z.abs 10 * Z.of_nat (length (intensities v1)) < 2 ^ 53)%Z).
  { pose proof E1 as X. vm_compute in X. injection X as <- _ _.
    split; [discriminate | reflexivity]. }
  destruct N1 as [N1 B1].
  destruct (Demo.extract 100%nat
              (gradient_sample (Demo.sample Demo.flat 10 zero BI_LINEAR 2)
                 (fmul (lit 2 1)
                    (astep (geometry
                              (Demo.sample Demo.flat 10 zero BI_LINEAR 2)))))
              w2)
    as [[[v2 g2] w3]| |] eqn:E2;
    [| exfalso; vm_compute in E2; discriminate E2 ..].
  assert (N2 : intensities v2 <> [] /\
               (Z.abs 10 * Z.of_nat (length (intensities v2)) < 2 ^ 53)%Z).
  { pose proof E2 as X. vm_compute in X. injection X as <- _ _.
    split; [discriminate | reflexivity]. }
  destruct N2 as [N2 B2].
  destruct (@update_flat_fallback Demo.PHI_MIN Demo.initial_polar_radius
              Demo.initial_polar_angle Demo.radius Demo.integrators
              10%Z (Q2Qc (inject_Z 10)) (Q2Qc (1 # 10))
              100%nat (Demo.sample Demo.flat 10 zero BI_LINEAR 2) 0%nat
              v0 v1 v2 s0 g1 g2 w1 w2 w3)
    with (fuel := 100%nat)
    as (s1 & s' & ge1 & ge2 & _ & _ & _ & _ & _ & _ & Hu & Hm & Hg & Hlit
        & Hge & Hre); try assumption.
  - apply (row_of_tens_flat 20).
  - intros v H. discriminate H.
  - reflexivity.
  - reflexivity.
  - intros E. apply Q2Qc_eq_iff in E. discriminate E.
  - reflexivity.
  - intros E. apply Q2Qc_eq_iff in E. discriminate E.
  - apply le_n.
  - exists s', w3. rewrite Hlit in Hg. repeat split; assumption.
Defined.


(** C3 (the claim as stated, at three samples).  Over a constant, fully
    finite image, with no gradient recorded, [update] does not always
    fall back to [-0.04].  On the short image the walk at distance 10
    finds no point on the array: the series are empty and the mean and
    the candidate gradient are NaN.  With [astep = 0.0], or with
    [sma = 0.0], the candidate gradient is [0.0 / 0.0].  In each case a
    NaN is not [>= -0.05 / 3], the fallback is not taken, and [update]
    records [gradient = NaN] with [gradient_error = NaN]. *)
Lemma update_flat_image_nan :
  flat_image Demo.integrators (Q2Qc (inject_Z 10)) Demo.short /\
  flat_image Demo.integrators (Q2Qc (inject_Z 10)) Demo.flat /\
  (exists (s' : Sample float) (w' : nat),
     Demo.update 100%nat (Demo.sample Demo.short 10 zero BI_LINEAR 0) 0%nat
     = Ok (s', w') /\
     gradient s' = Some NaN /\ gradient_error s' = Some NaN) /\
  (exists (s' : Sample float) (w' : nat),
     Demo.update 100%nat
       (Sample_init Demo.flat (of_Z 10) (Some (of_Z 3)) (Some (of_Z 4))
          zero zero zero (lit 3 1) 0%Z false BI_LINEAR None) 0%nat
     = Ok (s', w') /\
     gradient s' = Some NaN /\ gradient_error s' = Some NaN) /\
  (exists (s' : Sample float) (w' : nat),
     Demo.update 100%nat (Demo.sample Demo.flat 0 zero BI_LINEAR 0) 0%nat
     = Ok (s', w') /\
     gradient s' = Some NaN /\ gradient_error s' = Some NaN).
Proof.
  split; [apply (row_of_tens_flat 4)|].
  split; [apply (row_of_tens_flat 20)|].
  split; [|split].
  - destruct (Demo.update 100%nat
                (Demo.sample Demo.short 10 zero BI_LINEAR 0) 0%nat)
      as [[s' w']| |] eqn:E;
      [| exfalso; vm_compute in E; discriminate E ..].
    vm_compute in E. injection E as <- <-.
    eexists _, _. repeat split.
  - destruct (Demo.update 100%nat
                (Sample_init Demo.flat (of_Z 10) (Some (of_Z 3))
                   (Some (of_Z 4)) zero zero zero (lit 3 1) 0%Z false
                   BI_LINEAR None) 0%nat)
      as [[s' w']| |] eqn:E;
      [| exfalso; vm_compute in E; discriminate E ..].
    vm_compute in E. injection E as <- <-.
    eexists _, _. repeat split.
  - destruct (Demo.update 100%nat
                (Demo.sample Demo.flat 0 zero BI_LINEAR 0) 0%nat)
      as [[s' w']| |] eqn:E;
      [| exfalso; vm_compute in E; discriminate E ..].
    vm_compute in E. injection E as <- <-.
    eexists _, _. repeat split.
Qed.

(* ------------------------------------------------------------------ *)
(** * Further properties: coordinates *)

Lemma coordinates_loop_outcome (F : Type) (add mul : F -> F -> F)
  (cos sin : F -> F) (g : Geometry F) (angles radii : list F) :
  ((length angles <= length radii)%nat ->
   exists xs ys,
     coordinates_loop add mul cos sin g angles radii = Ok (xs, ys) /\
     length xs = length angles /\ length ys = length angles) /\
  ((length radii < length angles)%nat ->
   coordinates_loop add mul cos sin g angles radii = Raise IndexError).
Proof.
  revert radii; induction angles as [|a angles IH]; intros radii.
  - split; [|simpl; lia]. intros _. exists [], []. repeat split.
  - destruct radii as [|r radii].
    + split; [simpl; lia | reflexivity].
    + destruct (IH radii) as [IH1 IH2]. split; intros H; simpl in H.
      * destruct IH1 as (xs & ys & E & Hx & Hy); [lia|].
        cbn [coordinates_loop]. rewrite E. eexists _, _.
        split; [reflexivity|]. simpl. split; congruence.
      * cbn [coordinates_loop]. rewrite IH2 by lia. reflexivity.
Qed.

(** C8 (amended).  [coordinates] fails with [TypeError] exactly on a
    sample whose cache [extract] has not populated: the subscript
    [self.values[0]] of [None] raises it, and no coordinate array is
    returned.  The method has no check of its own: on no sample does it
    raise the [PreconditionError] of the specification. *)
Theorem coordinates_before_extract (F : Type) (add mul : F -> F -> F)
  (cos sin : F -> F) (s : Sample F) :
  (values s = None <-> coordinates add mul cos sin s = Raise TypeError) /\
  coordinates add mul cos sin s <> Raise PreconditionError.
Proof.
  unfold coordinates. destruct (values s) as [v|].
  - destruct (coordinates_loop_outcome add mul cos sin (geometry s)
                (angles v) (radii v)) as [H1 H2].
    destruct (Nat.le_gt_cases (length (angles v)) (length (radii v)))
      as [L|L].
    + destruct (H1 L) as (xs & ys & -> & _).
      split; [split|]; discriminate.
    + rewrite (H2 L). split; [split|]; discriminate.
  - split; [split; reflexivity | discriminate].
Qed.

(** Before [extract], on the real sample with its cache cleared. *)
Lemma coordinates_before_extract_witness :
  coordinates Rplus Rmult cos sin (set_values None Demo.real_sample)
  = Raise TypeError.
Proof.
  exact (proj1 (proj1 (coordinates_before_extract Rplus Rmult cos sin
                         (set_values None Demo.real_sample))) eq_refl).
Defined.

(** C8 (the claim as stated, at a sample).  Before [extract] the call
    fails at [self.values[0]] with the interpreter's [TypeError], which
    is not the explicit [PreconditionError] of the specification:
    [coordinates] has no check of its own. *)
Lemma coordinates_error_is_incidental :
  coordinates Rplus Rmult cos sin (set_values None Demo.real_sample)
  = Raise TypeError /\
  Raise TypeError <> (Raise PreconditionError : result (list R * list R)).
Proof. split; [reflexivity | discriminate]. Qed.

(** X16.  On a populated cache, [coordinates] needs a radius for every
    angle: it returns one (x, y) pair per angle when the radii are at
    least as many as the angles, and raises [IndexError] at [radii[i]]
    when they are fewer. *)
Theorem coordinates_outcome (F : Type) (add mul : F -> F -> F)
  (cos sin : F -> F) (s : Sample F) (v : Values F) :
  values s = Some v ->
  ((length (angles v) <= length (radii v))%nat ->
   exists xs ys,
     coordinates add mul cos sin s = Ok (xs, ys) /\
     length xs = length (angles v) /\ length ys = length (angles v)) /\
  ((length (radii v) < length (angles v))%nat ->
   coordinates add mul cos sin s = Raise IndexError).
Proof.
  intros Hv. unfold coordinates. rewrite Hv.
  apply coordinates_loop_outcome.
Qed.

(** X17.  Over the real numbers, a point sampled at radius zero (the
    point of a [CentralSample]) is mapped to the centre [(x0, y0)] of
    the geometry, whatever its angle and the position angle. *)
Theorem coordinates_zero_radius (s : Sample R) (v : Values R) :
  values s = Some v ->
  length (angles v) = length (radii v) ->
  exists xs ys : list R,
    coordinates Rplus Rmult cos sin s = Ok (xs, ys) /\
    forall i : nat,
      nth_error (radii v) i = Some 0%R ->
      nth_error xs i = Some (x0 (geometry s)) /\
      nth_error ys i = Some (y0 (geometry s)).
Proof.
  intros Hv Hl. unfold coordinates. rewrite Hv.
  destruct (coordinates_loop_total Rplus Rmult cos sin (geometry s)
              (angles v) (radii v) Hl) as (xs & ys & E & Hn).
  exists xs, ys. split; [exact E|]. intros i Hr.
  destruct (nth_error (angles v) i) as [a|] eqn:Ha.
  - destruct (Hn i a 0%R Ha Hr) as [Hx Hy]. rewrite Hx, Hy.
    split; f_equal; ring.
  - apply nth_error_None in Ha.
    assert (Hi : (i < length (radii v))%nat)
      by (apply nth_error_Some; congruence).
    lia.
Qed.

(* ------------------------------------------------------------------ *)
(** * Further properties: [CentralSample] *)

Section CentralProperties.

Variable integrators : IntegrMode -> Strategy.

Local Abbreviation CentralSample_extract_ :=
  (CentralSample_extract integrators).
Local Abbreviation CentralSample_update_ :=
  (CentralSample_update integrators).

(** X18.  [CentralSample.update] on an empty cache makes exactly one
    integrator call, the bi-linear integration at (0, 0), and returns:
    the tensor is that single point, kept even when its intensity is
    not finite; [total_points = actual_points = 1]; the mean is the
    intensity of the point; the three gradient attributes are [None],
    whatever they were; the configuration is untouched. *)
Theorem central_update_outcome (s : Sample float) (w : nat) :
  values s = None ->
  let i0 :=
    intensity_at (integrators BI_LINEAR) (image s) (geometry s) zero zero in
  exists s' : Sample float,
    CentralSample_update_ s w = Ok (s', S w) /\
    values s' = Some (mkValues [zero] [zero] [i0]) /\
    total_points s' = 1%nat /\ actual_points s' = 1%nat /\
    mean s' = Some i0 /\
    gradient s' = None /\ gradient_error s' = None /\
    gradient_relative_error s' = None /\
    image s' = image s /\ integrmode s' = integrmode s /\
    geometry s' = geometry s /\ sclip s' = sclip s /\ nclip s' = nclip s /\
    sector_area s' = sector_area s.
Proof.
  intros Hv i0. unfold CentralSample_update, CentralSample_extract.
  rewrite Hv. unfold CentralSample__extract, integrate, bind, tick, ret.
  cbv beta iota. cbn [new_integrator i_angles i_radii i_intensities
                        i_mode i_image i_geometry app intensities].
  eexists. split; [reflexivity|]. repeat split.
Qed.

(** X19.  A second [CentralSample.update] changes nothing and calls no
    integrator: it reads the cache and records the same mean. *)
Theorem central_update_idempotent (s : Sample float) (w : nat)
  (s' : Sample float) (w' : nat) :
  CentralSample_update_ s w = Ok (s', w') ->
  CentralSample_update_ s' w' = Ok (s', w').
Proof.
  intros H. unfold CentralSample_update, bind in *.
  destruct (CentralSample_extract_ s w) as [[[sv s0] w0]| |] eqn:E;
    try discriminate.
  assert (Kv : values s0 = Some sv).
  { unfold CentralSample_extract in E. destruct (values s) eqn:Hv.
    - unfold ret in E. injection E as <- <- <-. exact Hv.
    - unfold CentralSample__extract, integrate, bind, tick, ret in E.
      cbv beta iota in E. injection E as <- <- <-. reflexivity. }
  destruct (intensities sv) as [|i0 rest] eqn:Ei; [discriminate|].
  unfold ret in H. injection H as <- <-.
  unfold CentralSample_extract.
  cbn [values set_gradients set_mean]. rewrite Kv. unfold ret.
  rewrite Ei. destruct s0. reflexivity.
Qed.

End CentralProperties.

(* ------------------------------------------------------------------ *)
(** * The further properties on the concrete instance *)

(** Masking a series with a NaN and an infinity in it. *)
Lemma nan_masking_finite_aligned_idempotent_witness :
  let '(a', r', i') :=
    _nan_masking [zero; lit 1 1; lit 2 1] [of_Z 5; of_Z 5; of_Z 5]
      [of_Z 10; NaN; PInf] in
  Forall (fun x => isfinite x = true) i' /\
  length a' = length i' /\ length r' = length i' /\
  _nan_masking a' r' i' = (a', r', i').
Proof.
  exact (nan_masking_finite_aligned_idempotent
           [zero; lit 1 1; lit 2 1] [of_Z 5; of_Z 5; of_Z 5]
           [of_Z 10; NaN; PInf] eq_refl eq_refl).
Defined.

(** In mean mode on the ramp: one probe, then one call per point. *)
Lemma extract_integrator_calls_witness :
  exists (v : Values float) (s' : Sample float) (w' : nat),
    Demo.extract 100%nat (Demo.sample Demo.ramp 3 zero MEAN 0) 0%nat
    = Ok (v, s', w') /\
    w' = (0 + probes (Demo.sample Demo.ramp 3 zero MEAN 0)
          + total_points s')%nat.
Proof.
  returned E. eexists _, _, _. split; [reflexivity|].
  exact (@extract_integrator_calls Demo.PHI_MIN Demo.initial_polar_radius
           Demo.initial_polar_angle Demo.radius Demo.integrators 100%nat
           (Demo.sample Demo.ramp 3 zero MEAN 0) 0%nat _ _ _ eq_refl E).
Defined.

(** A walk that would start at 7 radians, beyond [2*pi + 0.05]. *)
Lemma extract_empty_walk_witness :
  exists s' : Sample float,
    extract Demo.PHI_MIN Demo.initial_polar_radius (fun _ => lit 7 1)
      Demo.radius Demo.integrators 0%nat
      (Demo.sample Demo.flat 10 zero MEAN 0) 0%nat
    = Ok (mkValues [] [] [], s',
          (0 + probes (Demo.sample Demo.flat 10 zero MEAN 0))%nat) /\
    values s' = Some (mkValues [] [] []) /\
    total_points s' = 0%nat /\ actual_points s' = 0%nat /\
    sector_area s' = Some NaN.
Proof.
  apply (@extract_empty_walk Demo.PHI_MIN Demo.initial_polar_radius
           (fun _ => lit 7 1) Demo.radius Demo.integrators 0%nat
           (Demo.sample Demo.flat 10 zero MEAN 0) 0%nat).
  - reflexivity.
  - vm_compute. reflexivity.
Defined.

(** The angles sampled on the flat image. *)
Lemma extract_angles_within_bound_witness :
  exists (v : Values float) (s' : Sample float) (w' : nat),
    Demo.extract 100%nat (Demo.sample Demo.flat 10 zero BI_LINEAR 0) 0%nat
    = Ok (v, s', w') /\
    Forall (fun a => fleb a (phi_max Demo.PHI_MIN) = true) (angles v).
Proof.
  returned E. eexists _, _, _. split; [reflexivity|].
  exact (@extract_angles_within_bound Demo.PHI_MIN
           Demo.initial_polar_radius Demo.initial_polar_angle Demo.radius
           Demo.integrators 100%nat
           (Demo.sample Demo.flat 10 zero BI_LINEAR 0) 0%nat _ _ _
           eq_refl E).
Defined.

(** On the plateau the geometry and the clip settings survive. *)
Lemma extract_preserves_configuration_witness :
  exists (v : Values float) (s' : Sample float) (w' : nat),
    Demo.extract 100%nat (Demo.sample Demo.plateau 10 zero BI_LINEAR 2)
      0%nat
    = Ok (v, s', w') /\
    geometry s' = geometry (Demo.sample Demo.plateau 10 zero BI_LINEAR 2) /\
    sclip s' = lit 3 1 /\ nclip s' = 2%Z.
Proof.
  returned E. eexists _, _, _. split; [reflexivity|].
  destruct (@extract_preserves_configuration Demo.PHI_MIN
              Demo.initial_polar_radius Demo.initial_polar_angle
              Demo.radius Demo.integrators 100%nat
              (Demo.sample Demo.plateau 10 zero BI_LINEAR 2) 0%nat _ _ _ E)
    as (_ & _ & Hg & Hs & Hn & _).
  repeat split; assumption.
Defined.

(** Reset and extract again, from a call counter of 5. *)
Lemma extract_after_reset_witness :
  exists (v : Values float) (s' : Sample float) (w' : nat),
    Demo.extract 100%nat (Demo.sample Demo.ramp 3 zero MEAN 0) 0%nat
    = Ok (v, s', w') /\
    Demo.extract 100%nat (set_values None s') 5%nat
    = Ok (v, s', (5 + (w' - 0))%nat).
Proof.
  returned E. eexists _, _, _. split; [reflexivity|].
  exact (@extract_after_reset Demo.PHI_MIN Demo.initial_polar_radius
           Demo.initial_polar_angle Demo.radius Demo.integrators 100%nat
           (Demo.sample Demo.ramp 3 zero MEAN 0) 0%nat 5%nat _ _ _
           eq_refl E).
Defined.

(** The raw series of a scan of the short image. *)
Lemma scan_path_witness :
  exists (raw : Integrator) (areas : list float) (total w' : nat),
    scan Demo.PHI_MIN Demo.initial_polar_radius Demo.initial_polar_angle
      Demo.radius Demo.integrators 100%nat
      (Demo.sample Demo.short 10 (lit 7 10) BI_LINEAR 0) 0%nat
    = Ok (raw, areas, total, w') /\
    path_from
      (Demo.initial_polar_angle
         (geometry (Demo.sample Demo.short 10 (lit 7 10) BI_LINEAR 0)))
      (i_angles raw).
Proof.
  destruct (scan Demo.PHI_MIN Demo.initial_polar_radius
              Demo.initial_polar_angle Demo.radius Demo.integrators 100%nat
              (Demo.sample Demo.short 10 (lit 7 10) BI_LINEAR 0) 0%nat)
    as [[[[raw areas] total] w']| |] eqn:E;
    [| exfalso; vm_compute in E; discriminate E ..].
  exists raw, areas, total, w'. split; [reflexivity|].
  exact (@scan_path Demo.PHI_MIN Demo.initial_polar_radius
           Demo.initial_polar_angle Demo.radius Demo.integrators 100%nat
           (Demo.sample Demo.short 10 (lit 7 10) BI_LINEAR 0) 0%nat
           _ _ _ _ E).
Defined.

(** Around (3, 4) the sibling sample keeps the centre. *)
Lemma gradient_sample_keeps_center_witness :
  geometry (gradient_sample (Demo.sample Demo.flat 10 zero BI_LINEAR 0)
              (lit 1 10))
  = set_sma (fmul (fadd (lit 1 1) (lit 1 10)) (of_Z 10))
      (geometry (Demo.sample Demo.flat 10 zero BI_LINEAR 0)).
Proof.
  destruct (@gradient_sample_keeps_center
              (Demo.sample Demo.flat 10 zero BI_LINEAR 0) (lit 1 10))
    as (Hg & _).
  - intros E. vm_compute in E. discriminate E.
  - intros E. vm_compute in E. discriminate E.
  - exact Hg.
Defined.

(** A sample centred on the first column of the flat image: the sibling
    sample is centred on (0.5, 10). *)
Lemma gradient_sample_recentred_witness :
  let s :=
    mkSample Demo.flat BI_LINEAR
      (mkGeometry zero (of_Z 4) (of_Z 10) zero zero (lit 1 10) false)
      (lit 3 1) 0%Z None None None None None None 0%nat 0%nat in
  x0 (geometry (gradient_sample s (lit 1 10)))
  = fdiv (of_nat (fst (shape (image s)))) (lit 2 1) /\
  y0 (geometry (gradient_sample s (lit 1 10)))
  = fdiv (of_nat (snd (shape (image s)))) (lit 2 1).
Proof.
  exact (@gradient_sample_recentred
           (mkSample Demo.flat BI_LINEAR
              (mkGeometry zero (of_Z 4) (of_Z 10) zero zero (lit 1 10) false)
              (lit 3 1) 0%Z None None None None None None 0%nat 0%nat)
           (lit 1 10) (or_introl eq_refl)).
Defined.


(** Three angles with three radii return three points; two angles with
    one radius raise. *)
Lemma coordinates_outcome_witness :
  (exists xs ys : list R,
     coordinates Rplus Rmult cos sin Demo.real_sample = Ok (xs, ys) /\
     length xs = 3%nat /\ length ys = 3%nat) /\
  coordinates Rplus Rmult cos sin
    (set_values (Some (mkValues [0%R; 1%R] [2%R] [1%R; 1%R]))
       Demo.real_sample)
  = Raise IndexError.
Proof.
  split.
  - destruct (@coordinates_outcome R Rplus Rmult cos sin Demo.real_sample
                _ eq_refl) as [H _].
    apply H. apply Nat.leb_le. reflexivity.
  - destruct (@coordinates_outcome R Rplus Rmult cos sin
                (set_values (Some (mkValues [0%R; 1%R] [2%R] [1%R; 1%R]))
                   Demo.real_sample) _ eq_refl) as [_ H].
    apply H. apply Nat.ltb_lt. reflexivity.
Defined.

(** A single point at radius zero, around (1, -1). *)
Lemma coordinates_zero_radius_witness :
  exists xs ys : list R,
    coordinates Rplus Rmult cos sin
      (set_values (Some (mkValues [PI] [0%R] [1%R])) Demo.real_sample)
    = Ok (xs, ys) /\
    nth_error xs 0 = Some 1%R /\ nth_error ys 0 = Some (-1)%R.
Proof.
  destruct (@coordinates_zero_radius
              (set_values (Some (mkValues [PI] [0%R] [1%R]))
                 Demo.real_sample) _ eq_refl eq_refl)
    as (xs & ys & E & H).
  exists xs, ys. split; [exact E|]. apply (H 0%nat). reflexivity.
Defined.

(** The central pixel of the ramp. *)
Lemma central_update_outcome_witness :
  exists s' : Sample float,
    CentralSample_update Demo.integrators
      (Demo.sample Demo.ramp 0 zero BI_LINEAR 0) 0%nat
    = Ok (s', 1%nat) /\
    total_points s' = 1%nat /\ actual_points s' = 1%nat /\
    gradient s' = None /\ gradient_error s' = None /\
    gradient_relative_error s' = None.
Proof.
  destruct (@central_update_outcome Demo.integrators
              (Demo.sample Demo.ramp 0 zero BI_LINEAR 0) 0%nat eq_refl)
    as (s' & E & _ & Ht & Ha & _ & Hg & Hge & Hgr & _).
  exists s'. repeat split; assumption.
Defined.

(** A second central update on the ramp. *)
Lemma central_update_idempotent_witness :
  exists (s' : Sample float) (w' : nat),
    CentralSample_update Demo.integrators
      (Demo.sample Demo.ramp 0 zero BI_LINEAR 0) 0%nat
    = Ok (s', w') /\
    CentralSample_update Demo.integrators s' w' = Ok (s', w').
Proof.
  destruct (CentralSample_update Demo.integrators
              (Demo.sample Demo.ramp 0 zero BI_LINEAR 0) 0%nat)
    as [[s' w']| |] eqn:E;
    [| exfalso; vm_compute in E; discriminate E ..].
  exists s', w'. split; [reflexivity|].
  exact (@central_update_idempotent Demo.integrators
           (Demo.sample Demo.ramp 0 zero BI_LINEAR 0) 0%nat s' w' E).
Defined.
